(** * Simple Space Arcade: simulation, synchronisation and connection layer

    A shallow embedding of the TypeScript sources of the game core
    (Vector2D, MathUtils, Ship, Projectile, GameState, PeerConnection,
    GameSync) together with the properties stated about them.

    Conventions of the embedding.
    - A method that mutates [this] becomes a function from the old object to
      the new one; a method that also returns a value returns a pair.
    - JavaScript [number]s are embedded at the type the code uses them at:
      identifiers, health, scores, millisecond clocks, delays and sequence
      numbers are integers ([Z]); lengths, size limits and attempt
      counters are [nat]; vector components are IEEE binary64 values
      ([float]), because the properties about them speak of NaN and
      infinities; angles are real numbers ([R]), i.e. rounding is not
      modelled for them.
    - [Map] objects whose iteration order matters are insertion-ordered
      association lists; the others are [gmap]s.
    - Timers ([setTimeout]) are recorded in the state as pending entries and
      fired by explicit events; [Date.now()] is an explicit argument. *)

From Stdlib Require Import ZArith Reals Lra Lia Floats Bool List.
From stdpp Require Import gmap strings list.

(** ** Vector2D (src: game/physics/Vector2D) *)

Module Vector2D.

Record t : Type := mk { x : float; y : float }.

Definition clone (this : t) : t := mk (x this) (y this).

Definition set (nx ny : float) (this : t) : t := mk nx ny.

Definition add (this vector : t) : t :=
  mk (x this + x vector)%float (y this + y vector)%float.

Definition subtract (this vector : t) : t :=
  mk (x this - x vector)%float (y this - y vector)%float.

Definition multiply (this : t) (scalar : float) : t :=
  mk (x this * scalar)%float (y this * scalar)%float.

(** [if (scalar !== 0) { this.x /= scalar; this.y /= scalar; }]
    On numbers [!==] is the negation of IEEE equality: [-0 !== 0] is
    false and [NaN !== 0] is true. *)
Definition divide (this : t) (scalar : float) : t :=
  if negb (PrimFloat.eqb scalar 0%float)
  then mk (x this / scalar)%float (y this / scalar)%float
  else this.

Definition magnitude (this : t) : float :=
  PrimFloat.sqrt (x this * x this + y this * y this)%float.

Definition magnitudeSquared (this : t) : float :=
  (x this * x this + y this * y this)%float.

(** [const mag = this.magnitude(); if (mag > 0) this.divide(mag);] *)
Definition normalize (this : t) : t :=
  let mag := magnitude this in
  if PrimFloat.ltb 0%float mag then divide this mag else this.

Definition distanceTo (this vector : t) : float :=
  let dx := (x this - x vector)%float in
  let dy := (y this - y vector)%float in
  PrimFloat.sqrt (dx * dx + dy * dy)%float.


Definition zero : t := mk 0%float 0%float.

End Vector2D.


(** ** MathUtils (src: utils/MathUtils.ts) *)

Module MathUtils.

(** [while (angle > Math.PI) angle -= 2 * Math.PI;]
    Every evaluation of the loop test spends one unit of fuel; [None]
    means the fuel ran out before the test failed. *)
Fixpoint whileAbovePi (fuel : nat) (angle : R) : option R :=
  match fuel with
  | O => None
  | S fuel' =>
      if Rgt_dec angle PI then whileAbovePi fuel' (angle - 2 * PI)%R
      else Some angle
  end.

(** [while (angle < -Math.PI) angle += 2 * Math.PI;] *)
Fixpoint whileBelowMinusPi (fuel : nat) (angle : R) : option R :=
  match fuel with
  | O => None
  | S fuel' =>
      if Rlt_dec angle (- PI) then whileBelowMinusPi fuel' (angle + 2 * PI)%R
      else Some angle
  end.

Definition normalizeAngle (fuel : nat) (angle : R) : option R :=
  match whileAbovePi fuel angle with
  | Some angle' => whileBelowMinusPi fuel angle'
  | None => None
  end.

End MathUtils.

(** ** GAME_CONSTANTS (src: utils/Constants), the entries the core reads *)

Module GAME_CONSTANTS.

Module SHIP.
Definition MAX_HEALTH : Z := 100.
Definition COLLISION_RADIUS : float := 16%float.
Definition INVULNERABILITY_TIME : Z := 2000.
Definition SHOOT_COOLDOWN : Z := 250.
Definition SIZE : float := 32%float.
End SHIP.

Module PROJECTILE.
Definition SPEED : float := 400%float.
Definition DAMAGE : Z := 25.
Definition COLLISION_RADIUS : float := 4%float.
Definition SIZE : float := 8%float.
Definition LIFETIME : Z := 2000.
End PROJECTILE.

Module COLORS.
Definition PLAYER_1 : string := "#00ff88".
Definition PLAYER_2 : string := "#ff4444".
End COLORS.

Definition getPlayerColor (playerIndex : Z) : string :=
  if (playerIndex =? 0)%Z then COLORS.PLAYER_1 else COLORS.PLAYER_2.

End GAME_CONSTANTS.

(** ** Movement (src: game/physics/Movement) *)

Module Movement.

(** The [bounds] argument: [{ width, height, x?, y? }]. *)
Record Bounds : Type := mkBounds {
  width : float;
  height : float;
  x : option float;
  y : option float
}.

(** [v || 0] on an optional number: [undefined], [0], [-0] and [NaN] are
    falsy. *)
Definition orZero (v : option float) : float :=
  match v with
  | Some n => if PrimFloat.eqb n 0 || PrimFloat.is_nan n then 0%float else n
  | None => 0%float
  end.

(** [isWithinBounds(position, bounds)] *)
Definition isWithinBounds (position : Vector2D.t) (bounds : Bounds) : bool :=
  let minX := orZero (x bounds) in
  let minY := orZero (y bounds) in
  let maxX := (minX + width bounds)%float in
  let maxY := (minY + height bounds)%float in
  PrimFloat.leb minX (Vector2D.x position)
  && PrimFloat.leb (Vector2D.x position) maxX
  && PrimFloat.leb minY (Vector2D.y position)
  && PrimFloat.leb (Vector2D.y position) maxY.

(** [wrapAroundBounds(position, bounds)]: four assignments in a row, each
    test reading what the one before may have written. *)
Definition wrapAroundBounds (position : Vector2D.t) (bounds : Bounds)
    : Vector2D.t :=
  let minX := orZero (x bounds) in
  let minY := orZero (y bounds) in
  let maxX := (minX + width bounds)%float in
  let maxY := (minY + height bounds)%float in
  let px := Vector2D.x position in
  let py := Vector2D.y position in
  let px := if PrimFloat.ltb px minX then maxX else px in
  let px := if PrimFloat.ltb maxX px then minX else px in
  let py := if PrimFloat.ltb py minY then maxY else py in
  let py := if PrimFloat.ltb maxY py then minY else py in
  Vector2D.mk px py.

End Movement.

(** ** Ship (src: game/entities/Ship.ts) *)

Module Ship.

Record Input : Type := mkInput {
  thrust : bool;
  rotateLeft : bool;
  rotateRight : bool;
  shoot : bool
}.

Definition noInput : Input := mkInput false false false false.

Record t : Type := mk {
  position : Vector2D.t;
  velocity : Vector2D.t;
  acceleration : Vector2D.t;
  rotation : R;
  angularVelocity : R;
  health : Z;
  maxHealth : Z;
  isAlive : bool;
  lastShotTime : Z;
  invulnerableUntil : Z;
  playerId : Z;
  color : string;
  input : Input;
  size : float;
  collisionRadius : float
}.

(** Field assignments [this.f = v]. *)
Definition set_position (v : Vector2D.t) (s : t) : t :=
  mk v (velocity s) (acceleration s) (rotation s) (angularVelocity s)
     (health s) (maxHealth s) (isAlive s) (lastShotTime s)
     (invulnerableUntil s) (playerId s) (color s) (input s) (size s)
     (collisionRadius s).
Definition set_velocity (v : Vector2D.t) (s : t) : t :=
  mk (position s) v (acceleration s) (rotation s) (angularVelocity s)
     (health s) (maxHealth s) (isAlive s) (lastShotTime s)
     (invulnerableUntil s) (playerId s) (color s) (input s) (size s)
     (collisionRadius s).
Definition set_acceleration (v : Vector2D.t) (s : t) : t :=
  mk (position s) (velocity s) v (rotation s) (angularVelocity s)
     (health s) (maxHealth s) (isAlive s) (lastShotTime s)
     (invulnerableUntil s) (playerId s) (color s) (input s) (size s)
     (collisionRadius s).
Definition set_rotation (r : R) (s : t) : t :=
  mk (position s) (velocity s) (acceleration s) r (angularVelocity s)
     (health s) (maxHealth s) (isAlive s) (lastShotTime s)
     (invulnerableUntil s) (playerId s) (color s) (input s) (size s)
     (collisionRadius s).
Definition set_health (h : Z) (s : t) : t :=
  mk (position s) (velocity s) (acceleration s) (rotation s)
     (angularVelocity s) h (maxHealth s) (isAlive s) (lastShotTime s)
     (invulnerableUntil s) (playerId s) (color s) (input s) (size s)
     (collisionRadius s).
Definition set_isAlive (b : bool) (s : t) : t :=
  mk (position s) (velocity s) (acceleration s) (rotation s)
     (angularVelocity s) (health s) (maxHealth s) b (lastShotTime s)
     (invulnerableUntil s) (playerId s) (color s) (input s) (size s)
     (collisionRadius s).
Definition set_lastShotTime (n : Z) (s : t) : t :=
  mk (position s) (velocity s) (acceleration s) (rotation s)
     (angularVelocity s) (health s) (maxHealth s) (isAlive s) n
     (invulnerableUntil s) (playerId s) (color s) (input s) (size s)
     (collisionRadius s).
Definition set_invulnerableUntil (n : Z) (s : t) : t :=
  mk (position s) (velocity s) (acceleration s) (rotation s)
     (angularVelocity s) (health s) (maxHealth s) (isAlive s)
     (lastShotTime s) n (playerId s) (color s) (input s) (size s)
     (collisionRadius s).
Definition set_input (i : Input) (s : t) : t :=
  mk (position s) (velocity s) (acceleration s) (rotation s)
     (angularVelocity s) (health s) (maxHealth s) (isAlive s)
     (lastShotTime s) (invulnerableUntil s) (playerId s) (color s) i
     (size s) (collisionRadius s).

(** [this.rotation = playerId === 0 ? 0 : Math.PI] *)
Definition spawnRotation (playerId : Z) : R :=
  if (playerId =? 0)%Z then 0%R else PI.

(** [constructor(playerId, spawnPosition)] *)
Definition new (playerId : Z) (spawnPosition : Vector2D.t) : t :=
  mk (Vector2D.clone spawnPosition) Vector2D.zero Vector2D.zero
     (spawnRotation playerId) 0%R
     GAME_CONSTANTS.SHIP.MAX_HEALTH GAME_CONSTANTS.SHIP.MAX_HEALTH true 0 0
     playerId (GAME_CONSTANTS.getPlayerColor playerId) noInput
     GAME_CONSTANTS.SHIP.SIZE GAME_CONSTANTS.SHIP.COLLISION_RADIUS.



Definition canShoot (currentTime : Z) (this : t) : bool :=
  if negb (isAlive this) then false
  else (GAME_CONSTANTS.SHIP.SHOOT_COOLDOWN <=? currentTime - lastShotTime this)%Z.

Definition recordShot (currentTime : Z) (this : t) : t :=
  set_lastShotTime currentTime this.

(** [return currentTime < this.invulnerableUntil] *)
Definition isInvulnerable (currentTime : Z) (this : t) : bool :=
  (currentTime <? invulnerableUntil this)%Z.

(** [die()] *)
Definition die (this : t) : t :=
  set_acceleration (Vector2D.set 0 0 (acceleration this))
    (set_velocity (Vector2D.set 0 0 (velocity this))
       (set_isAlive false this)).

(** [takeDamage(damage, currentTime)]: the returned boolean and the ship
    after the call. *)
Definition takeDamage (damage currentTime : Z) (this : t) : bool * t :=
  if negb (isAlive this) || isInvulnerable currentTime this then (false, this)
  else
    let this1 := set_health (health this - damage)%Z this in
    if (health this1 <=? 0)%Z then (true, die (set_health 0 this1))
    else (false, this1).

(** [respawn(spawnPosition, currentTime)] *)
Definition respawn (spawnPosition : Vector2D.t) (currentTime : Z) (this : t) : t :=
  let s1 := set_position (Vector2D.clone spawnPosition) this in
  let s2 := set_velocity (Vector2D.set 0 0 (velocity s1)) s1 in
  let s3 := set_acceleration (Vector2D.set 0 0 (acceleration s2)) s2 in
  let s4 := set_rotation (spawnRotation (playerId s3)) s3 in
  let s5 := set_health (maxHealth s4) s4 in
  let s6 := set_isAlive true s5 in
  let s7 :=
    set_invulnerableUntil
      (currentTime + GAME_CONSTANTS.SHIP.INVULNERABILITY_TIME)%Z s6 in
  set_input noInput s7.

(** [setInput(input)] with a complete input object, as [endMatch] gives. *)
Definition setInput (i : Input) (this : t) : t := set_input i this.

(** The [bounds] that [handleBoundaries] builds from the canvas size
    (800 x 600). *)
Definition canvasBounds : Movement.Bounds :=
  Movement.mkBounds 800 600 (Some 0%float) (Some 0%float).

(** [handleBoundaries()] *)
Definition handleBoundaries (this : t) : t :=
  set_position (Movement.wrapAroundBounds (position this) canvasBounds) this.

(** What the simulation does to a ship between its creation and its
    removal, one call each. *)
Inductive Call : Type :=
| CallTakeDamage (damage currentTime : Z)
| CallRespawn (spawnPosition : Vector2D.t) (currentTime : Z)
| CallRecordShot (currentTime : Z)
| CallSetInput (i : Input)
| CallHandleBoundaries.

Definition call (this : t) (c : Call) : t :=
  match c with
  | CallTakeDamage damage currentTime => snd (takeDamage damage currentTime this)
  | CallRespawn spawnPosition currentTime => respawn spawnPosition currentTime this
  | CallRecordShot currentTime => recordShot currentTime this
  | CallSetInput i => setInput i this
  | CallHandleBoundaries => handleBoundaries this
  end.

(** The damage of a call is not negative (projectiles carry 25). *)
Definition damaging (c : Call) : Prop :=
  match c with
  | CallTakeDamage damage _ => (0 <= damage)%Z
  | _ => True
  end.

End Ship.

(** ** Projectile (src: game/entities/Projectile) *)

Module Projectile.

Record t : Type := mk {
  position : Vector2D.t;
  velocity : Vector2D.t;
  direction : Vector2D.t;
  ownerId : Z;
  damage : Z;
  speed : float;
  size : float;
  collisionRadius : float;
  isActive : bool;
  createdAt : Z;
  color : string
}.

(** [constructor(ownerId, startPosition, direction, color)], created at
    time [now]. *)
Definition new (ownerId : Z) (startPosition direction : Vector2D.t)
    (color : string) (now : Z) : t :=
  let dir := Vector2D.normalize (Vector2D.clone direction) in
  mk (Vector2D.clone startPosition)
     (Vector2D.multiply (Vector2D.clone dir) GAME_CONSTANTS.PROJECTILE.SPEED)
     dir ownerId GAME_CONSTANTS.PROJECTILE.DAMAGE
     GAME_CONSTANTS.PROJECTILE.SPEED GAME_CONSTANTS.PROJECTILE.SIZE
     GAME_CONSTANTS.PROJECTILE.COLLISION_RADIUS true now color.

(** [destroy()]: [this.isActive = false]. *)
Definition destroy (this : t) : t :=
  mk (position this) (velocity this) (direction this) (ownerId this)
     (damage this) (speed this) (size this) (collisionRadius this) false
     (createdAt this) (color this).

Definition onCollision (this : t) : t := destroy this.

(** [checkCollision(targetPosition, targetRadius)] *)
Definition checkCollision (this : t) (targetPosition : Vector2D.t)
    (targetRadius : float) : bool :=
  if negb (isActive this) then false
  else
    let distance := Vector2D.distanceTo (position this) targetPosition in
    PrimFloat.leb distance (collisionRadius this + targetRadius)%float.

(** [checkShipCollision(ship)] *)
Definition checkShipCollision (this : t) (ship : Ship.t) : bool :=
  if negb (isActive this) || negb (Ship.isAlive ship)
     || (Ship.playerId ship =? ownerId this)%Z
  then false
  else checkCollision this (Ship.position ship) (Ship.collisionRadius ship).

End Projectile.

(** ** JavaScript [Map<number, V>]: insertion-ordered, keys unique *)

Module JsMap.

Definition t (V : Type) : Type := list (Z * V).

Definition empty {V} : t V := [].

Fixpoint get {V} (k : Z) (m : t V) : option V :=
  match m with
  | [] => None
  | (k', v) :: m' => if (k' =? k)%Z then Some v else get k m'
  end.

(** [m.set(k, v)]: an existing key keeps its place, a new key goes last. *)
Fixpoint set {V} (k : Z) (v : V) (m : t V) : t V :=
  match m with
  | [] => [(k, v)]
  | (k', v') :: m' =>
      if (k' =? k)%Z then (k, v) :: m' else (k', v') :: set k v m'
  end.

Fixpoint delete {V} (k : Z) (m : t V) : t V :=
  match m with
  | [] => []
  | (k', v') :: m' =>
      if (k' =? k)%Z then m' else (k', v') :: delete k m'
  end.

(** Mutation of the object stored under [k] through the reference that
    [m.get(k)] returned; nothing happens when the key is absent. *)
Fixpoint alter {V} (f : V -> V) (k : Z) (m : t V) : t V :=
  match m with
  | [] => []
  | (k', v') :: m' =>
      if (k' =? k)%Z then (k', f v') :: m' else (k', v') :: alter f k m'
  end.

(** [m.values()] / [m.forEach]: insertion order. *)
Definition values {V} (m : t V) : list V := map snd m.

(** Mutation of every stored object ([m.forEach(v => ...)]). *)
Definition forEach {V} (f : V -> V) (m : t V) : t V :=
  map (fun kv => (fst kv, f (snd kv))) m.

Definition size {V} (m : t V) : nat := length m.

(** A [Map] holds every key once. *)
Definition uniqueKeys {V} (m : t V) : Prop := NoDup (map fst m).

End JsMap.

(** ** JavaScript [a || b] on an optional number: [undefined], [null] and
       [0] are falsy. *)

Definition jsOrNull (a : option Z) : option Z :=
  match a with
  | Some n => if (n =? 0)%Z then None else Some n
  | None => None
  end.

Definition jsOrZero (a : option Z) : Z :=
  match a with
  | Some n => if (n =? 0)%Z then 0%Z else n
  | None => 0%Z
  end.

(** ** GameState (src: game/core/GameState) *)

Module GameState.

Record Player : Type := mkPlayer {
  id : Z;
  name : string;
  score : Z;
  kills : Z;
  deaths : Z;
  isConnected : bool
}.

Inductive GameMode : Type := deathmatch | survival | practice.

Record t : Type := mk {
  ships : JsMap.t Ship.t;
  projectiles : list Projectile.t;
  isRunning : bool;
  isPaused : bool;
  gameStartTime : Z;
  lastUpdateTime : Z;
  players : JsMap.t Player;
  maxPlayers : nat;
  gameMode : GameMode;
  scoreLimit : Z;
  timeLimit : Z;
  matchStartTime : Z;
  matchEndTime : Z;
  isMatchActive : bool;
  winner : option Z;
  (** pending [setTimeout(() => this.respawnPlayer(id), delay)] calls,
      as (player id, delay) *)
  respawnTimers : list (Z * Z)
}.

Definition set_players (ps : JsMap.t Player) (g : t) : t :=
  mk (ships g) (projectiles g) (isRunning g) (isPaused g) (gameStartTime g)
     (lastUpdateTime g) ps (maxPlayers g) (gameMode g) (scoreLimit g)
     (timeLimit g) (matchStartTime g) (matchEndTime g) (isMatchActive g)
     (winner g) (respawnTimers g).

Definition set_respawnTimers (ts : list (Z * Z)) (g : t) : t :=
  mk (ships g) (projectiles g) (isRunning g) (isPaused g) (gameStartTime g)
     (lastUpdateTime g) (players g) (maxPlayers g) (gameMode g)
     (scoreLimit g) (timeLimit g) (matchStartTime g) (matchEndTime g)
     (isMatchActive g) (winner g) ts.

(** [victim.deaths++] *)
Definition incDeaths (p : Player) : Player :=
  mkPlayer (id p) (name p) (score p) (kills p) (deaths p + 1)%Z (isConnected p).

(** [killer.kills++; killer.score += KILL_SCORE] *)
Definition creditKill (killScore : Z) (p : Player) : Player :=
  mkPlayer (id p) (name p) (score p + killScore)%Z (kills p + 1)%Z (deaths p)
    (isConnected p).

(** [endMatch(winnerId?)], called at wall-clock time [now]:
    [this.winner = winnerId || null]. *)
Definition endMatch (winnerId : option Z) (now : Z) (g : t) : t :=
  mk (JsMap.forEach (Ship.setInput Ship.noInput) (ships g))
     (projectiles g) (isRunning g) (isPaused g) (gameStartTime g)
     (lastUpdateTime g) (players g) (maxPlayers g) (gameMode g)
     (scoreLimit g) (timeLimit g) (matchStartTime g) now false
     (jsOrNull winnerId) (respawnTimers g).

(** The [forEach] of the time-limit branch: the running pair
    [(highestScore, winnerId)], started at [(-1, null)]. *)
Definition highestScoreStep (acc : Z * option Z) (player : Player)
    : Z * option Z :=
  if (fst acc <? score player)%Z then (score player, Some (id player))
  else acc.

Definition highestScorer (ps : JsMap.t Player) : Z * option Z :=
  fold_left highestScoreStep (JsMap.values ps) ((-1)%Z, None).

(** [checkWinConditions(currentTime)]; [now] is the [Date.now()] that
    [endMatch] reads. *)
Definition checkWinConditions (currentTime now : Z) (g : t) : t :=
  if negb (isMatchActive g) then g
  else
    match find (fun player => (scoreLimit g <=? score player)%Z)
               (JsMap.values (players g)) with
    | Some player => endMatch (Some (id player)) now g
    | None =>
        if (0 <? timeLimit g)%Z then
          let matchDuration := (currentTime - matchStartTime g)%Z in
          if (timeLimit g <=? matchDuration)%Z then
            let winnerId := snd (highestScorer (players g)) in
            (* [this.endMatch(winnerId || undefined)] *)
            endMatch (jsOrNull winnerId) now g
          else g
        else g
    end.

Section KillResolution.

(** [GAME_CONSTANTS.GAME.KILL_SCORE] and [GAME_CONSTANTS.GAME.RESPAWN_DELAY]
    are read by [handleShipDestroyed], but the constants table declares
    neither; they are parameters here. *)
Variable KILL_SCORE : Z.
Variable RESPAWN_DELAY : Z.

(** [handleShipDestroyed(ship, killerId)] *)
Definition handleShipDestroyed (ship : Ship.t) (killerId : Z) (g : t) : t :=
  let victim := JsMap.get (Ship.playerId ship) (players g) in
  let killer := JsMap.get killerId (players g) in
  let g1 :=
    match victim with
    | Some _ =>
        set_players (JsMap.alter incDeaths (Ship.playerId ship) (players g)) g
    | None => g
    end in
  let g2 :=
    match killer with
    | Some _ =>
        if negb (killerId =? Ship.playerId ship)%Z then
          set_players
            (JsMap.alter (creditKill KILL_SCORE) killerId (players g1)) g1
        else g1
    | None => g1
    end in
  set_respawnTimers
    (respawnTimers g2 ++ [(Ship.playerId ship, RESPAWN_DELAY)]) g2.

End KillResolution.

Definition set_ships (ss : JsMap.t Ship.t) (g : t) : t :=
  mk ss (projectiles g) (isRunning g) (isPaused g) (gameStartTime g)
     (lastUpdateTime g) (players g) (maxPlayers g) (gameMode g) (scoreLimit g)
     (timeLimit g) (matchStartTime g) (matchEndTime g) (isMatchActive g)
     (winner g) (respawnTimers g).

Definition set_projectiles (ps : list Projectile.t) (g : t) : t :=
  mk (ships g) ps (isRunning g) (isPaused g) (gameStartTime g)
     (lastUpdateTime g) (players g) (maxPlayers g) (gameMode g) (scoreLimit g)
     (timeLimit g) (matchStartTime g) (matchEndTime g) (isMatchActive g)
     (winner g) (respawnTimers g).

(** [GAME_CONSTANTS.SPAWN_POSITIONS] *)
Definition SPAWN_POSITIONS : list Vector2D.t :=
  [Vector2D.mk 200 300; Vector2D.mk 600 300].

(** [getSpawnPosition(playerId)]:
    [const index = playerId % spawnPositions.length;
     return new Vector2D(spawnPositions[index].x, spawnPositions[index].y);]
    The remainder has the sign of [playerId]; at a negative index the
    table reads [undefined] and the property access throws: [None]. *)
Definition getSpawnPosition (playerId : Z) : option Vector2D.t :=
  let index := Z.rem playerId (Z.of_nat (length SPAWN_POSITIONS)) in
  if (index <? 0)%Z then None
  else
    match nth_error SPAWN_POSITIONS (Z.to_nat index) with
    | Some position => Some (Vector2D.mk (Vector2D.x position) (Vector2D.y position))
    | None => None
    end.

(** [addPlayer(playerId, playerName)] *)
Definition addPlayer (playerId : Z) (playerName : string) (g : t) : bool * t :=
  if (maxPlayers g <=? JsMap.size (players g))%nat then (false, g)
  else
    (true,
     set_players
       (JsMap.set playerId (mkPlayer playerId playerName 0 0 0 true) (players g))
       g).

(** [removePlayer(playerId)] *)
Definition removePlayer (playerId : Z) (g : t) : t :=
  set_ships (JsMap.delete playerId (ships g))
    (set_players (JsMap.delete playerId (players g)) g).

(** [spawnPlayer(playerId)]; [None] when [getSpawnPosition] throws. *)
Definition spawnPlayer (playerId : Z) (g : t) : option t :=
  match JsMap.get playerId (players g) with
  | None => Some g
  | Some player =>
      if negb (isConnected player) then Some g
      else
        match getSpawnPosition playerId with
        | Some spawnPosition =>
            Some (set_ships
                    (JsMap.set playerId (Ship.new playerId spawnPosition) (ships g))
                    g)
        | None => None
        end
  end.

(** [respawnPlayer(playerId)], called at wall-clock time [now]. *)
Definition respawnPlayer (playerId now : Z) (g : t) : option t :=
  match JsMap.get playerId (ships g) with
  | None => spawnPlayer playerId g
  | Some _ =>
      match getSpawnPosition playerId with
      | Some spawnPosition =>
          Some (set_ships
                  (JsMap.alter (Ship.respawn spawnPosition now) playerId (ships g))
                  g)
      | None => None
      end
  end.

(** [player.score = 0; player.kills = 0; player.deaths = 0] *)
Definition resetCounters (p : Player) : Player :=
  mkPlayer (id p) (name p) 0 0 0 (isConnected p).

(** [reset()] *)
Definition reset (g : t) : t :=
  mk JsMap.empty [] false false (gameStartTime g) (lastUpdateTime g)
     (JsMap.forEach resetCounters (players g)) (maxPlayers g) (gameMode g)
     (scoreLimit g) (timeLimit g) (matchStartTime g) (matchEndTime g) false
     None (respawnTimers g).

(** [startMatch()], called at wall-clock time [now]; [None] when a
    [spawnPlayer] call throws. *)
Definition startMatch (now : Z) (g : t) : option t :=
  let g1 := reset g in
  let g2 :=
    mk (ships g1) (projectiles g1) true (isPaused g1) (gameStartTime g1)
       (lastUpdateTime g1) (players g1) (maxPlayers g1) (gameMode g1)
       (scoreLimit g1) (timeLimit g1) now (matchEndTime g1) true (winner g1)
       (respawnTimers g1) in
  fold_left
    (fun acc player =>
       match acc with
       | Some g' =>
           if isConnected player then spawnPlayer (id player) g' else Some g'
       | None => None
       end)
    (JsMap.values (players g2)) (Some g2).

(** [cleanupProjectiles()] *)
Definition cleanupProjectiles (g : t) : t :=
  set_projectiles (filter (fun p => Projectile.isActive p = true) (projectiles g)) g.

(** [setPlayerInput(playerId, input)] with a complete input object. *)
Definition setPlayerInput (playerId : Z) (i : Ship.Input) (g : t) : t :=
  set_ships (JsMap.alter (Ship.setInput i) playerId (ships g)) g.

(** The inner loop of [handleCollisions] for one projectile:
    [for (const ship of this.ships.values())
       if (projectile.checkShipCollision(ship)) { ...hit...; break; }]
    together with the [ship.takeDamage(projectile.damage, Date.now())] of
    [handleProjectileHit]. Returns the ships after the loop and, when a
    ship was hit, whether it was killed and the ship as it is after the
    hit. *)
Fixpoint hitFirstShip (projectile : Projectile.t) (now : Z)
    (ss : JsMap.t Ship.t) : option (bool * Ship.t) * JsMap.t Ship.t :=
  match ss with
  | [] => (None, [])
  | (key, ship) :: rest =>
      if Projectile.checkShipCollision projectile ship then
        let hit := Ship.takeDamage (Projectile.damage projectile) now ship in
        (Some hit, (key, snd hit) :: rest)
      else
        let (result, rest') := hitFirstShip projectile now rest in
        (result, (key, ship) :: rest')
  end.

Section Collisions.

Variable KILL_SCORE : Z.
Variable RESPAWN_DELAY : Z.

(** The body of the outer loop of [handleCollisions] for the projectile at
    index [i], with [handleProjectileHit] inlined:
    [if (!projectile.isActive) continue;] then the inner loop, then
    [projectile.onCollision()] and, for a kill,
    [handleShipDestroyed(ship, projectile.ownerId)]. *)
Definition collideProjectile (now : Z) (g : t) (i : nat) : t :=
  match projectiles g !! i with
  | None => g
  | Some projectile =>
      if negb (Projectile.isActive projectile) then g
      else
        match hitFirstShip projectile now (ships g) with
        | (Some (wasKilled, ship), ships') =>
            let g1 := set_ships ships' g in
            let g2 :=
              set_projectiles
                (<[i := Projectile.onCollision projectile]> (projectiles g1)) g1 in
            if wasKilled
            then handleShipDestroyed KILL_SCORE RESPAWN_DELAY ship
                   (Projectile.ownerId projectile) g2
            else g2
        | (None, _) => g
        end
  end.

(** [handleCollisions()], all hits stamped with the same [Date.now()]. *)
Definition handleCollisions (now : Z) (g : t) : t :=
  fold_left (collideProjectile now) (seq 0 (length (projectiles g))) g.

End Collisions.

(** Every player record is stored under its own id, once (what
    [addPlayer] establishes). *)
Definition playersConsistent (g : t) : Prop :=
  JsMap.uniqueKeys (players g) /\
  Forall (fun e => id (snd e) = fst e) (players g).

(** The spawn slot of a player with a non-negative id. *)
Definition spawnSlot (playerId : Z) : Vector2D.t :=
  if Z.even playerId then Vector2D.mk 200 300 else Vector2D.mk 600 300.

(** The ship map that [startMatch] builds: a fresh ship for every
    connected player, in joining order. *)
Definition freshShips (ps : list (Z * Player)) : JsMap.t Ship.t :=
  map (fun e => (fst e, Ship.new (fst e) (spawnSlot (fst e))))
    (filter (fun e => isConnected (snd e) = true) ps).

(** A running match, started at time 0, between the players whose
    (id, score) pairs are given in joining order; one point per kill,
    every ship alive at a spawn position. *)
Definition matchOf (scores : list (Z * Z)) (scoreLimit timeLimit : Z) : t :=
  mk (map (fun e =>
             (fst e,
              Ship.new (fst e)
                (if (fst e =? 0)%Z then Vector2D.mk 200 300
                 else Vector2D.mk 600 300)))
        scores)
     [] true false 0 0
     (map (fun e => (fst e, mkPlayer (fst e) "player" (snd e) (snd e) 0 true))
        scores)
     2 deathmatch scoreLimit timeLimit 0 0 true None [].

End GameState.

(** ** NetworkTypes (src: network/NetworkTypes) *)

Module NetworkTypes.

Inductive NetworkMessageType : Type :=
| PING | PONG | PLAYER_JOINED | PLAYER_LEFT | CONNECTION_ESTABLISHED
| GAME_STATE_UPDATE | PLAYER_INPUT | GAME_EVENT
| START_GAME | PAUSE_GAME | RESUME_GAME | END_GAME | RESTART_GAME
| ERROR_MESSAGE | SYNC_REQUEST | SYNC_RESPONSE.

Inductive ConnectionStatus : Type :=
| DISCONNECTED | CONNECTING | CONNECTED | ERROR | RECONNECTING.

Inductive NetworkErrorType : Type :=
| CONNECTION_FAILED | CONNECTION_LOST | MESSAGE_SEND_FAILED
| INVALID_MESSAGE | PEER_NOT_FOUND | TIMEOUT | WEBRTC_ERROR.

(** The envelope shared by all messages; the type-specific fields the
    connection manager itself fills in are kept in [fields]. *)
Inductive MessageFields : Type :=
| NoFields
| PongFields (originalTimestamp : Z)
| ConnectionEstablishedFields (hostId clientId : string).

Record NetworkMessage : Type := mkMessage {
  type : NetworkMessageType;
  timestamp : Z;
  senderId : string;
  fields : MessageFields
}.

Record NetworkError : Type := mkError {
  errorType : NetworkErrorType;
  errorMessage : string;
  errorTimestamp : Z
}.

Record NetworkConfig : Type := mkConfig {
  maxReconnectAttempts : nat;
  reconnectDelay : Z;
  pingInterval : Z;
  timeoutDuration : Z;
  maxMessageQueueSize : nat
}.

Definition DEFAULT_NETWORK_CONFIG : NetworkConfig :=
  mkConfig 5 2000 5000 10000 100.

Definition createBaseMessage (type : NetworkMessageType) (senderId : string)
    (now : Z) : NetworkMessage :=
  mkMessage type now senderId NoFields.

End NetworkTypes.

(** ** PeerConnection (src: network/PeerConnection.ts) *)

Module PeerConnection.
Import NetworkTypes.

(** The transport's [DataConnection], as far as the manager looks at it:
    the remote peer, the [open] flag, and what was handed to [send]. *)
Record DataConnection : Type := mkConn {
  peer : string;
  open : bool;
  sent : list NetworkMessage
}.

Record t : Type := mk {
  (** [this.peer && !this.peer.destroyed] *)
  peerAlive : bool;
  connections : gmap string DataConnection;
  (** the errors handed to the registered error handlers, oldest first *)
  errors : list NetworkError;
  config : NetworkConfig;
  isHost : bool;
  localPeerId : string;
  connectionStatus : ConnectionStatus;
  (** [stats.reconnectCount] and [stats.lastError] *)
  reconnectCount : nat;
  lastError : option NetworkError;
  pingIntervals : gset string;
  reconnectAttempts : gmap string nat;
  messageQueue : gmap string (list NetworkMessage);
  (** pending reconnection [setTimeout]s, as (peer id, delay in ms) *)
  reconnectTimers : list (string * Z)
}.

Definition set_connections (c : gmap string DataConnection) (s : t) : t :=
  mk (peerAlive s) c (errors s) (config s) (isHost s) (localPeerId s)
     (connectionStatus s) (reconnectCount s) (lastError s) (pingIntervals s)
     (reconnectAttempts s) (messageQueue s) (reconnectTimers s).
Definition set_messageQueue (q : gmap string (list NetworkMessage)) (s : t) : t :=
  mk (peerAlive s) (connections s) (errors s) (config s) (isHost s)
     (localPeerId s) (connectionStatus s) (reconnectCount s) (lastError s)
     (pingIntervals s) (reconnectAttempts s) q (reconnectTimers s).
Definition set_reconnectAttempts (a : gmap string nat) (s : t) : t :=
  mk (peerAlive s) (connections s) (errors s) (config s) (isHost s)
     (localPeerId s) (connectionStatus s) (reconnectCount s) (lastError s)
     (pingIntervals s) a (messageQueue s) (reconnectTimers s).
Definition set_pingIntervals (p : gset string) (s : t) : t :=
  mk (peerAlive s) (connections s) (errors s) (config s) (isHost s)
     (localPeerId s) (connectionStatus s) (reconnectCount s) (lastError s)
     p (reconnectAttempts s) (messageQueue s) (reconnectTimers s).
Definition set_reconnectTimers (l : list (string * Z)) (s : t) : t :=
  mk (peerAlive s) (connections s) (errors s) (config s) (isHost s)
     (localPeerId s) (connectionStatus s) (reconnectCount s) (lastError s)
     (pingIntervals s) (reconnectAttempts s) (messageQueue s) l.
Definition set_reconnectCount (n : nat) (s : t) : t :=
  mk (peerAlive s) (connections s) (errors s) (config s) (isHost s)
     (localPeerId s) (connectionStatus s) n (lastError s)
     (pingIntervals s) (reconnectAttempts s) (messageQueue s)
     (reconnectTimers s).

(** [new PeerConnection(config)], before any transport exists. *)
Definition new (config : NetworkConfig) : t :=
  mk false ∅ [] config false "" DISCONNECTED 0 None ∅ ∅ ∅ [].

(** [handleError(type, message)]: records the error as [stats.lastError]
    and hands it to every error handler. *)
Definition handleError (type : NetworkErrorType) (message : string)
    (now : Z) (s : t) : t :=
  let error := mkError type message now in
  mk (peerAlive s) (connections s) (errors s ++ [error]) (config s)
     (isHost s) (localPeerId s) (connectionStatus s) (reconnectCount s)
     (Some error) (pingIntervals s) (reconnectAttempts s) (messageQueue s)
     (reconnectTimers s).

(** [conn.send(message)] *)
Definition send (message : NetworkMessage) (conn : DataConnection)
    : DataConnection :=
  mkConn (peer conn) (open conn) (sent conn ++ [message]).

(** The [else] branch of [sendToSpecificPeer]:
    [const queue = this.messageQueue.get(peerId) || [];
     if (queue.length < this.config.maxMessageQueueSize) {
       queue.push(message); this.messageQueue.set(peerId, queue); }] *)
Definition enqueue (message : NetworkMessage) (peerId : string) (s : t) : t :=
  let queue := default [] (messageQueue s !! peerId) in
  if (length queue <? maxMessageQueueSize (config s))%nat
  then set_messageQueue (<[peerId := queue ++ [message]]> (messageQueue s)) s
  else s.

(** [sendToSpecificPeer(message, peerId)] *)
Definition sendToSpecificPeer (message : NetworkMessage) (peerId : string)
    (s : t) : t :=
  match connections s !! peerId with
  | Some conn =>
      if open conn
      then set_connections (<[peerId := send message conn]> (connections s)) s
      else enqueue message peerId s
  | None => enqueue message peerId s
  end.

(** The channel to [peerId] is not open: [!(conn && conn.open)]. *)
Definition channelOpen (peerId : string) (s : t) : bool :=
  match connections s !! peerId with
  | Some conn => open conn
  | None => false
  end.

(** [startPingInterval(peerId)] *)
Definition startPingInterval (peerId : string) (s : t) : t :=
  set_pingIntervals ({[peerId]} ∪ pingIntervals s) s.

(** [setupConnection(conn)] *)
Definition setupConnection (conn : DataConnection) (now : Z) (s : t) : t :=
  let s1 := set_connections (<[peer conn := conn]> (connections s)) s in
  let s2 := set_messageQueue (<[peer conn := []]> (messageQueue s1)) s1 in
  let s3 := set_reconnectAttempts (<[peer conn := 0%nat]> (reconnectAttempts s2)) s2 in
  let s4 := startPingInterval (peer conn) s3 in
  if isHost s4 then
    let message := createBaseMessage CONNECTION_ESTABLISHED (localPeerId s4) now in
    sendToSpecificPeer
      (mkMessage CONNECTION_ESTABLISHED (timestamp message) (senderId message)
         (ConnectionEstablishedFields (localPeerId s4) (peer conn)))
      (peer conn) s4
  else s4.

Definition handleOutgoingConnection (conn : DataConnection) (peerId : string)
    (now : Z) (s : t) : t :=
  setupConnection conn now s.

(** [cleanupPeerConnection(peerId)] *)
Definition cleanupPeerConnection (peerId : string) (s : t) : t :=
  let s1 := set_pingIntervals (pingIntervals s ∖ {[peerId]}) s in
  let s2 := set_connections (delete peerId (connections s1)) s1 in
  set_messageQueue (delete peerId (messageQueue s2)) s2.

(** [attemptReconnection(peerId)] *)
Definition attemptReconnection (peerId : string) (now : Z) (s : t) : t :=
  let attempts := default 0%nat (reconnectAttempts s !! peerId) in
  if (attempts <? maxReconnectAttempts (config s))%nat then
    let s1 := set_reconnectAttempts
                (<[peerId := (attempts + 1)%nat]> (reconnectAttempts s)) s in
    let s2 := set_reconnectCount (reconnectCount s1 + 1)%nat s1 in
    set_reconnectTimers
      (reconnectTimers s2
         ++ [(peerId, (reconnectDelay (config s2) * Z.of_nat (attempts + 1))%Z)]) s2
  else
    handleError CONNECTION_FAILED ("Failed to reconnect to peer " +:+ peerId)
      now s.

(** [handleConnectionClosed(peerId)], the handler of a channel's [close]
    event. *)
Definition handleConnectionClosed (peerId : string) (now : Z) (s : t) : t :=
  let s1 := cleanupPeerConnection peerId s in
  if match connectionStatus s1 with CONNECTED => true | _ => false end
  then attemptReconnection peerId now s1
  else s1.

(** Removes the first pending reconnection timer of [peerId]. *)
Fixpoint removeTimer (peerId : string) (l : list (string * Z))
    : list (string * Z) :=
  match l with
  | [] => []
  | (p, d) :: l' =>
      if String.eqb p peerId then l' else (p, d) :: removeTimer peerId l'
  end.

(** The callback that [attemptReconnection] hands to [setTimeout]:
    [if (this.peer && !this.peer.destroyed) {
       const conn = this.peer.connect(peerId);
       this.handleOutgoingConnection(conn, peerId); }]
    The connection that [connect] returns is not open yet. *)
Definition reconnectTimerFired (peerId : string) (now : Z) (s : t) : t :=
  let s1 := set_reconnectTimers (removeTimer peerId (reconnectTimers s)) s in
  if peerAlive s1
  then handleOutgoingConnection (mkConn peerId false []) peerId now s1
  else s1.

(** What happens to the link with one peer. *)
Inductive LinkEvent : Type :=
| ChannelClosed      (** the [close] event of the peer's channel *)
| ReconnectTimerDue. (** the pending reconnection timer fires *)

Definition step (peerId : string) (now : Z) (s : t) (e : LinkEvent) : t :=
  match e with
  | ChannelClosed => handleConnectionClosed peerId now s
  | ReconnectTimerDue => reconnectTimerFired peerId now s
  end.

Definition run (peerId : string) (now : Z) (events : list LinkEvent) (s : t) : t :=
  fold_left (step peerId now) events s.

(** [n] messages offered to [sendToSpecificPeer], in order. *)
Definition sendAll (messages : list NetworkMessage) (peerId : string) (s : t) : t :=
  fold_left (fun s' m => sendToSpecificPeer m peerId s') messages s.

(** The queue of [peerId], as [sendToSpecificPeer] reads it. *)
Definition queueOf (peerId : string) (s : t) : list NetworkMessage :=
  default [] (messageQueue s !! peerId).

(** No stored queue is longer than the configured maximum. *)
Definition queuesBounded (s : t) : Prop :=
  forall peerId queue,
    messageQueue s !! peerId = Some queue ->
    length queue <= maxMessageQueueSize (config s).

(** The state between two reconnection attempts on a connected manager:
    the first-attempt timer is pending and no error was reported. *)
Definition awaitingRetry (peerId : string) (s : t) : Prop :=
  peerAlive s = true /\ connectionStatus s = CONNECTED /\ errors s = [] /\
  reconnectTimers s = [(peerId, (reconnectDelay (config s) * 1)%Z)] /\
  reconnectAttempts s !! peerId = Some 1%nat.

(** The events of a link that drops and then fails [n] reconnection
    attempts in a row. *)
Definition dropAndFail (n : nat) : list LinkEvent :=
  ChannelClosed :: concat (repeat [ReconnectTimerDue; ChannelClosed] n).

(** [broadcastMessage(message)]:
    [this.connections.forEach((conn) => { if (conn.open) conn.send(message); })] *)
Definition broadcastMessage (message : NetworkMessage) (s : t) : t :=
  set_connections
    ((fun conn => if open conn then send message conn else conn) <$> connections s)
    s.

(** [disconnect()]: the ping intervals, the connections, the transport
    endpoint, the queues and the attempt counters are dropped and the
    status is set to DISCONNECTED; pending reconnection timers are not
    touched. *)
Definition disconnect (s : t) : t :=
  mk false ∅ (errors s) (config s) (isHost s) "" DISCONNECTED
     (reconnectCount s) (lastError s) ∅ ∅ ∅ (reconnectTimers s).

(** Link events of several peers, each with the peer it concerns. *)
Definition runLinks (now : Z) (events : list (string * LinkEvent)) (s : t) : t :=
  fold_left (fun s' e => step (fst e) now s' (snd e)) events s.

(** The message that [setupConnection] sends as host. *)
Definition connectionEstablished (conn : DataConnection) (now : Z) (s : t)
    : NetworkMessage :=
  mkMessage CONNECTION_ESTABLISHED now (localPeerId s)
    (ConnectionEstablishedFields (localPeerId s) (peer conn)).

(** A client whose channel to the host is open, in the default
    configuration. *)
Definition connectedClient : t :=
  setupConnection (mkConn "host" true []) 0
    (mk true ∅ [] DEFAULT_NETWORK_CONFIG false "client" CONNECTED 0 None ∅ ∅ ∅ []).

End PeerConnection.

(** ** GameSync (src: network/GameSync.ts) *)

Module GameSync.

Section WithGameState.

(** [applyReceivedGameState] works through accessors of the simulation
    state ([getShipById], [clearProjectiles], [setGameStatus], ...)
    that the simulation classes do not declare; the local simulation
    state, the snapshot payload and the application of a payload are
    therefore parameters. *)
Variable LocalState : Type.
Variable Snapshot : Type.
Variable applyReceivedGameState : Snapshot -> LocalState -> LocalState.

Record GameStateUpdateMessage : Type := mkUpdate {
  timestamp : Z;
  senderId : string;
  gameState : Snapshot;
  sequenceNumber : Z
}.

Record t : Type := mk {
  localState : LocalState;
  isHost : bool;
  lastProcessedSequence : gmap string Z;
  stateHistory : list GameStateUpdateMessage;
  maxHistorySize : nat
}.

(** [new GameSync(peerConnection, gameState)] *)
Definition new (isHost : bool) (gameState : LocalState) : t :=
  mk gameState isHost ∅ [] 60.

(** [this.stateHistory.push(message);
     if (this.stateHistory.length > this.maxHistorySize)
       this.stateHistory.shift();] *)
Definition pushHistory (message : GameStateUpdateMessage) (s : t)
    : list GameStateUpdateMessage :=
  let history := stateHistory s ++ [message] in
  if (maxHistorySize s <? length history)%nat then tail history
  else history.

(** [handleGameStateUpdate(message)] *)
Definition handleGameStateUpdate (message : GameStateUpdateMessage) (s : t) : t :=
  let lastSequence :=
    jsOrZero (lastProcessedSequence s !! senderId message) in
  if (sequenceNumber message <=? lastSequence)%Z then s
  else
    let sequences :=
      <[senderId message := sequenceNumber message]> (lastProcessedSequence s) in
    let state :=
      if negb (isHost s)
      then applyReceivedGameState (gameState message) (localState s)
      else localState s in
    mk state (isHost s) sequences (pushHistory message s) (maxHistorySize s).

(** The states a synchronisation manager can be in: a fresh one, one
    that handled a snapshot message, or one on which another method
    ran; [handleGameStateUpdate] is the only writer of
    [lastProcessedSequence]. *)
Inductive reachable : t -> Prop :=
| reachable_new : forall isHost gameState,
    reachable (new isHost gameState)
| reachable_update : forall message s,
    reachable s -> reachable (handleGameStateUpdate message s)
| reachable_other : forall s s',
    reachable s ->
    lastProcessedSequence s' = lastProcessedSequence s ->
    reachable s'.

End WithGameState.

Arguments mkUpdate {Snapshot} _ _ _ _.
Arguments timestamp {Snapshot} _.
Arguments senderId {Snapshot} _.
Arguments gameState {Snapshot} _.
Arguments sequenceNumber {Snapshot} _.
Arguments mk {LocalState Snapshot} _ _ _ _ _.
Arguments localState {LocalState Snapshot} _.
Arguments isHost {LocalState Snapshot} _.
Arguments lastProcessedSequence {LocalState Snapshot} _.
Arguments stateHistory {LocalState Snapshot} _.
Arguments maxHistorySize {LocalState Snapshot} _.
Arguments new {LocalState Snapshot} _ _.
Arguments pushHistory {LocalState Snapshot} _ _.
Arguments handleGameStateUpdate {LocalState Snapshot} _ _ _.
Arguments reachable {LocalState Snapshot} _ _.

(** [interpolateAngle(from, to, alpha)]: the local [diff] after the two
    conditional corrections, and the returned value. *)
Definition interpolateDiff (from to : R) : R :=
  let diff := (to - from)%R in
  let diff := if Rgt_dec diff PI then (diff - 2 * PI)%R else diff in
  let diff := if Rlt_dec diff (- PI) then (diff + 2 * PI)%R else diff in
  diff.

Definition interpolateAngle (from to alpha : R) : R :=
  (from + interpolateDiff from to * alpha)%R.

(** Snapshot messages handled one after the other, oldest first. *)
Definition handleAll {LocalState Snapshot : Type}
    (applyReceivedGameState : Snapshot -> LocalState -> LocalState)
    (messages : list (GameStateUpdateMessage Snapshot))
    (s : t LocalState Snapshot) : t LocalState Snapshot :=
  fold_left (fun s' message => handleGameStateUpdate applyReceivedGameState message s')
    messages s.

(** The search loop of [interpolateState]:
    [for (let i = 0; i < this.stateHistory.length - 1; i++)] looks at
    [current = stateHistory[i]] and [next = stateHistory[i + 1]] and stops at
    the first pair with
    [current.timestamp <= targetTime && next.timestamp >= targetTime]. *)
Fixpoint findInterpolationPair {Snapshot : Type} (targetTime : Z)
    (history : list (GameStateUpdateMessage Snapshot))
    : option (GameStateUpdateMessage Snapshot * GameStateUpdateMessage Snapshot) :=
  match history with
  | current :: rest =>
      match rest with
      | next :: _ =>
          if (timestamp current <=? targetTime)%Z
             && (targetTime <=? timestamp next)%Z
          then Some (current, next)
          else findInterpolationPair targetTime rest
      | [] => None
      end
  | [] => None
  end.

(** [const targetTime = renderTime - 100] and the pair found for it;
    nothing is looked for when the history holds fewer than two
    snapshots. *)
Definition interpolationPair {LocalState Snapshot : Type} (renderTime : Z)
    (s : t LocalState Snapshot)
    : option (GameStateUpdateMessage Snapshot * GameStateUpdateMessage Snapshot) :=
  if (length (stateHistory s) <? 2)%nat then None
  else findInterpolationPair (renderTime - 100)%Z (stateHistory s).

(** [alpha = (targetTime - fromState.timestamp)
            / (toState.timestamp - fromState.timestamp)];
    [None] stands for the quotient by zero that JavaScript evaluates to
    NaN or to an infinity. *)
Definition interpolationAlpha {Snapshot : Type} (targetTime : Z)
    (fromState toState : GameStateUpdateMessage Snapshot) : option R :=
  if (timestamp toState - timestamp fromState =? 0)%Z then None
  else Some (IZR (targetTime - timestamp fromState)
             / IZR (timestamp toState - timestamp fromState))%R.

(** [requestSync()]: the [lastKnownSequence] it sends. *)
Definition lastKnownSequence {LocalState Snapshot : Type}
    (s : t LocalState Snapshot) : Z :=
  match last (stateHistory s) with
  | Some message => sequenceNumber message
  | None => 0%Z
  end.

End GameSync.

(** * Properties *)

(** ** Vector2D: the zero-divisor guards *)

Section Vector2DProperties.
Import Vector2D.
Open Scope float_scope.




End Vector2DProperties.

(** ** Projectile: ownership exclusion *)

(** C2: a projectile never collides with its owner's ship, with a dead
    ship, or when it is itself inactive, wherever the two are. *)
Theorem checkShipCollision_excludes_owner_and_dead
    (p : Projectile.t) (s : Ship.t) :
  Ship.playerId s = Projectile.ownerId p \/
  Ship.isAlive s = false \/
  Projectile.isActive p = false ->
  Projectile.checkShipCollision p s = false.
Proof.
  intros H. unfold Projectile.checkShipCollision.
  destruct H as [H | [H | H]].
  - rewrite H, Z.eqb_refl. now rewrite orb_true_r.
  - rewrite H. cbn. now rewrite orb_true_r.
  - rewrite H. reflexivity.
Qed.

(** A projectile of player 1 placed exactly on the living ship of player 1. *)
Lemma checkShipCollision_excludes_owner_and_dead_witness :
  let pos := Vector2D.mk 600 300 in
  let s := Ship.new 1 pos in
  let p := Projectile.new 1 pos (Vector2D.mk 1 0) "#ff4444" 0 in
  Projectile.checkCollision p (Ship.position s) (Ship.collisionRadius s) = true /\
  Projectile.checkShipCollision p s = false.
Proof.
  split.
  - vm_compute. reflexivity.
  - apply checkShipCollision_excludes_owner_and_dead. left. reflexivity.
Defined.

(** ** Ship: damage, death and respawn *)

Section ShipProperties.
Import Ship.
Open Scope Z_scope.


Lemma takeDamage_invulnerable (d t : Z) (s : Ship.t) :
  t < invulnerableUntil s -> takeDamage d t s = (false, s).
Proof.
  intros H. unfold takeDamage, isInvulnerable.
  apply Z.ltb_lt in H. rewrite H. now rewrite orb_true_r.
Qed.

(** Damage on a living ship outside its invulnerability window. *)
Lemma takeDamage_vulnerable (d t : Z) (s : Ship.t) :
  isAlive s = true -> invulnerableUntil s <= t ->
  takeDamage d t s =
    if health s - d <=? 0
    then (true, die (set_health 0 (set_health (health s - d) s)))
    else (false, set_health (health s - d) s).
Proof.
  intros Ha Hi. unfold takeDamage, isInvulnerable.
  apply Z.ltb_ge in Hi. rewrite Ha, Hi. reflexivity.
Qed.

(** C9: respawning opens an invulnerability window of
    [INVULNERABILITY_TIME]; inside it [takeDamage] reports no kill and
    changes nothing, from its end on the damage is subtracted from the
    health and the ship dies when nothing is left. *)
Theorem respawn_invulnerability
    (s : Ship.t) (pos : Vector2D.t) (t t' d : Z) :
  let s' := respawn pos t s in
  invulnerableUntil s' = t + GAME_CONSTANTS.SHIP.INVULNERABILITY_TIME /\
  isAlive s' = true /\ health s' = maxHealth s /\
  (t' < invulnerableUntil s' -> takeDamage d t' s' = (false, s')) /\
  (invulnerableUntil s' <= t' ->
     (d < health s' ->
        fst (takeDamage d t' s') = false /\
        health (snd (takeDamage d t' s')) = health s' - d /\
        isAlive (snd (takeDamage d t' s')) = true) /\
     (health s' <= d ->
        fst (takeDamage d t' s') = true /\
        health (snd (takeDamage d t' s')) = 0 /\
        isAlive (snd (takeDamage d t' s')) = false)).
Proof.
  intros s'.
  assert (Ha : isAlive s' = true) by reflexivity.
  split; [reflexivity |]. split; [exact Ha |]. split; [reflexivity |].
  split; [apply takeDamage_invulnerable |].
  intros Hi. rewrite (takeDamage_vulnerable d t' s' Ha Hi).
  split; intros Hd;
    destruct (Z.leb_spec (health s' - d) 0); try lia; repeat split.
Qed.

End ShipProperties.

Lemma respawn_invulnerability_witness :
  let pos := Vector2D.mk 600 300 in
  let s' := Ship.respawn pos 1000 (Ship.new 1 pos) in
  Ship.invulnerableUntil s' = 3000%Z /\
  Ship.takeDamage 25 1500 s' = (false, s') /\
  Ship.health (snd (Ship.takeDamage 25 3000 s')) = 75%Z /\
  Ship.isAlive (snd (Ship.takeDamage 100 3000 s')) = false.
Proof.
  intros pos s'.
  destruct (respawn_invulnerability (Ship.new 1 pos) pos 1000 1500 25)
    as (H1 & _ & _ & H2 & _).
  destruct (respawn_invulnerability (Ship.new 1 pos) pos 1000 3000 25)
    as (_ & _ & _ & _ & H3).
  destruct (respawn_invulnerability (Ship.new 1 pos) pos 1000 3000 100)
    as (_ & _ & _ & _ & H4).
  split; [exact H1 |].
  split; [apply H2; reflexivity |].
  split.
  - apply H3; [discriminate | reflexivity].
  - apply H4; discriminate.
Defined.

(** ** JsMap: reading after a mutation through a reference *)

Section JsMapProperties.
Context {V : Type}.
Open Scope Z_scope.

Lemma JsMap_get_alter_eq (f : V -> V) (k : Z) (m : JsMap.t V) :
  JsMap.get k (JsMap.alter f k m) = option_map f (JsMap.get k m).
Proof.
  induction m as [| [k' v'] m IH]; cbn; [reflexivity |].
  destruct (k' =? k) eqn:E; cbn; rewrite E; [reflexivity | exact IH].
Qed.

Lemma JsMap_get_alter_ne (f : V -> V) (k k' : Z) (m : JsMap.t V) :
  k <> k' -> JsMap.get k' (JsMap.alter f k m) = JsMap.get k' m.
Proof.
  intros Hne.
  induction m as [| [k0 v0] m IH]; cbn; [reflexivity |].
  destruct (k0 =? k) eqn:E; cbn.
  - apply Z.eqb_eq in E. subst k0.
    destruct (k =? k') eqn:E'; [apply Z.eqb_eq in E'; contradiction | reflexivity].
  - destruct (k0 =? k'); [reflexivity | exact IH].
Qed.

End JsMapProperties.

(** ** GameState: kill resolution *)

Section KillResolutionProperties.
Import GameState.
Open Scope Z_scope.

Variable KILL_SCORE : Z.
Variable RESPAWN_DELAY : Z.



End KillResolutionProperties.


(** ** GameState: win conditions *)

Section WinConditionProperties.
Import GameState.
Open Scope Z_scope.

(** Whatever the state, [endMatch] closes the match and records
    [winnerId || null]. *)
Lemma endMatch_winner (winnerId : option Z) (now : Z) (g : GameState.t) :
  isMatchActive (endMatch winnerId now g) = false /\
  winner (endMatch winnerId now g) = jsOrNull winnerId.
Proof. split; reflexivity. Qed.

(** The score branch: the first player (in insertion order) whose score
    has reached the limit ends the match. *)
Lemma checkWinConditions_score_limit (currentTime now : Z) (g : GameState.t)
    (player : Player) :
  isMatchActive g = true ->
  find (fun p => scoreLimit g <=? score p) (JsMap.values (players g)) = Some player ->
  checkWinConditions currentTime now g = endMatch (Some (id player)) now g.
Proof.
  intros Ha Hf. unfold checkWinConditions. rewrite Ha, Hf. reflexivity.
Qed.

(** Once the match is closed, [checkWinConditions] changes nothing. *)
Lemma checkWinConditions_inactive (currentTime now : Z) (g : GameState.t) :
  isMatchActive g = false -> checkWinConditions currentTime now g = g.
Proof. intros Ha. unfold checkWinConditions. rewrite Ha. reflexivity. Qed.

(** At the time limit the first-seen of two players with equal scores is
    the one recorded. *)
Lemma checkWinConditions_tie_first_seen :
  winner (checkWinConditions 300000 300000 (matchOf [(1, 3); (2, 3)] 10 300000))
    = Some 1 /\
  winner (checkWinConditions 300000 300000 (matchOf [(2, 3); (1, 3)] 10 300000))
    = Some 2.
Proof. split; reflexivity. Qed.

(** C4 on the code: when player 0 reaches the score limit the match ends
    with no winner recorded ([0 || null] is [null]), and so it does when
    player 0 leads at the time limit; player 1 in the same position is
    recorded. *)
Theorem checkWinConditions_player_zero_unrecorded :
  let byScore0 := checkWinConditions 1000 1000 (matchOf [(0, 5); (1, 2)] 5 300000) in
  let byTime0 := checkWinConditions 300000 300000 (matchOf [(0, 5); (1, 2)] 10 300000) in
  let byScore1 := checkWinConditions 1000 1000 (matchOf [(0, 2); (1, 5)] 5 300000) in
  let byTime1 := checkWinConditions 300000 300000 (matchOf [(0, 2); (1, 5)] 10 300000) in
  (isMatchActive byScore0 = false /\ winner byScore0 = None) /\
  (isMatchActive byTime0 = false /\ winner byTime0 = None) /\
  (isMatchActive byScore1 = false /\ winner byScore1 = Some 1) /\
  (isMatchActive byTime1 = false /\ winner byTime1 = Some 1).
Proof. cbv zeta. repeat split; reflexivity. Qed.

End WinConditionProperties.

(** ** GameSync: sequence monotonicity of snapshots *)

Section GameSyncProperties.
Import GameSync.
Open Scope Z_scope.

Context {LocalState Snapshot : Type}.
Variable applyReceivedGameState : Snapshot -> LocalState -> LocalState.

Abbreviation handle := (handleGameStateUpdate applyReceivedGameState).
Abbreviation reachable := (GameSync.reachable applyReceivedGameState).

Lemma jsOrZero_positive (o : option Z) :
  (forall v, o = Some v -> 0 < v) ->
  0 <= jsOrZero o /\ (forall v, o = Some v -> jsOrZero o = v).
Proof.
  intros H. destruct o as [n |]; cbn; [| split; [lia | discriminate]].
  specialize (H n eq_refl).
  destruct (Z.eqb_spec n 0); [lia |].
  split; [lia | congruence].
Qed.

(** Every stored last-accepted sequence number is positive: a message is
    accepted only above [lastSequence], which is never negative. *)
Lemma reachable_sequences_positive (s : GameSync.t LocalState Snapshot) :
  reachable s ->
  forall sender v, lastProcessedSequence s !! sender = Some v -> 0 < v.
Proof.
  induction 1 as [host g | message s Hs IH | s s' Hs IH Heq];
    intros sender v Hl.
  - cbn in Hl. rewrite lookup_empty in Hl. discriminate.
  - unfold handleGameStateUpdate in Hl.
    destruct (Z.leb_spec (sequenceNumber message)
                (jsOrZero (lastProcessedSequence s !! senderId message)))
      as [Hle | Hgt]; [eauto |].
    cbn in Hl.
    destruct (decide (senderId message = sender)) as [Hsame | Hne].
    + subst sender. rewrite lookup_insert_eq in Hl. injection Hl as <-.
      pose proof (jsOrZero_positive _ (IH (senderId message))) as [Hnn _]. lia.
    + rewrite lookup_insert_ne in Hl by exact Hne. eauto.
  - rewrite Heq in Hl. eauto.
Qed.


End GameSyncProperties.


(** ** PeerConnection: the bounded outbound queue *)

Section QueueProperties.
Import NetworkTypes PeerConnection.

Lemma queueOf_enqueue (message : NetworkMessage) (peerId : string)
    (s : PeerConnection.t) :
  queueOf peerId (enqueue message peerId s) =
    if (length (queueOf peerId s) <? maxMessageQueueSize (config s))%nat
    then queueOf peerId s ++ [message]
    else queueOf peerId s.
Proof.
  unfold enqueue, queueOf.
  destruct (length (default [] (messageQueue s !! peerId))
            <? maxMessageQueueSize (config s))%nat; [| reflexivity].
  cbn. rewrite lookup_insert_eq. reflexivity.
Qed.

Lemma enqueue_keeps_link (message : NetworkMessage) (peerId : string)
    (s : PeerConnection.t) :
  connections (enqueue message peerId s) = connections s /\
  config (enqueue message peerId s) = config s.
Proof.
  unfold enqueue.
  destruct (length (default [] (messageQueue s !! peerId))
            <? maxMessageQueueSize (config s))%nat; split; reflexivity.
Qed.

Lemma sendToSpecificPeer_not_open (message : NetworkMessage) (peerId : string)
    (s : PeerConnection.t) :
  channelOpen peerId s = false ->
  sendToSpecificPeer message peerId s = enqueue message peerId s.
Proof.
  unfold channelOpen, sendToSpecificPeer.
  destruct (connections s !! peerId) as [conn |]; [| reflexivity].
  intros ->. reflexivity.
Qed.

Lemma enqueue_queuesBounded (message : NetworkMessage) (peerId : string)
    (s : PeerConnection.t) :
  queuesBounded s -> queuesBounded (enqueue message peerId s).
Proof.
  intros Hb p q. unfold enqueue.
  destruct (Nat.ltb_spec (length (default [] (messageQueue s !! peerId)))
              (maxMessageQueueSize (config s))) as [Hlt | Hge]; [| apply Hb].
  cbn. destruct (decide (peerId = p)) as [Heq | Hne].
  - subst p. rewrite lookup_insert_eq. intros [= <-].
    rewrite length_app. cbn. lia.
  - rewrite lookup_insert_ne by exact Hne. apply Hb.
Qed.

Lemma new_queuesBounded (config : NetworkConfig) :
  queuesBounded (PeerConnection.new config).
Proof. intros p q. cbn. rewrite lookup_empty. discriminate. Qed.

Lemma sendToSpecificPeer_queuesBounded (message : NetworkMessage)
    (peerId : string) (s : PeerConnection.t) :
  queuesBounded s -> queuesBounded (sendToSpecificPeer message peerId s).
Proof.
  intros Hb. unfold sendToSpecificPeer.
  destruct (connections s !! peerId) as [conn |];
    [destruct (open conn) |]; try (apply enqueue_queuesBounded, Hb).
  exact Hb.
Qed.

Lemma setupConnection_queuesBounded (conn : DataConnection) (now : Z)
    (s : PeerConnection.t) :
  queuesBounded s -> queuesBounded (setupConnection conn now s).
Proof.
  intros Hb.
  assert (Hb' : queuesBounded
            (startPingInterval (peer conn)
               (set_reconnectAttempts (<[peer conn := 0%nat]> (reconnectAttempts s))
                  (set_messageQueue (<[peer conn := []]> (messageQueue s))
                     (set_connections (<[peer conn := conn]> (connections s)) s))))).
  { intros p q. cbn. destruct (decide (peer conn = p)) as [Heq | Hne].
    - subst p. rewrite lookup_insert_eq. intros [= <-]. cbn. lia.
    - rewrite lookup_insert_ne by exact Hne. apply Hb. }
  unfold setupConnection. cbv zeta.
  match goal with |- queuesBounded (if ?b then _ else _) => destruct b end;
    [apply sendToSpecificPeer_queuesBounded |]; exact Hb'.
Qed.

Lemma cleanupPeerConnection_queuesBounded (peerId : string) (s : PeerConnection.t) :
  queuesBounded s -> queuesBounded (cleanupPeerConnection peerId s).
Proof.
  intros Hb p q. cbn. intros Hl.
  apply lookup_delete_Some in Hl as [_ Hl]. exact (Hb p q Hl).
Qed.

Lemma sendAll_not_open (messages : list NetworkMessage) (peerId : string)
    (s : PeerConnection.t) :
  channelOpen peerId s = false ->
  length (queueOf peerId s) <= maxMessageQueueSize (config s) ->
  channelOpen peerId (sendAll messages peerId s) = false /\
  config (sendAll messages peerId s) = config s /\
  queueOf peerId (sendAll messages peerId s) =
    take (maxMessageQueueSize (config s)) (queueOf peerId s ++ messages).
Proof.
  revert s. induction messages as [| m ms IH]; intros s Hc Hlen.
  - cbn. rewrite app_nil_r, firstn_all2 by exact Hlen. auto.
  - unfold sendAll. cbn. fold (sendAll ms peerId (sendToSpecificPeer m peerId s)).
    rewrite sendToSpecificPeer_not_open by exact Hc.
    destruct (enqueue_keeps_link m peerId s) as [Hconn Hcfg].
    assert (Hc' : channelOpen peerId (enqueue m peerId s) = false).
    { unfold channelOpen in *. rewrite Hconn. exact Hc. }
    assert (Hq := queueOf_enqueue m peerId s).
    destruct (Nat.ltb_spec (length (queueOf peerId s))
                (maxMessageQueueSize (config s))) as [Hlt | Hge].
    + destruct (IH (enqueue m peerId s) Hc') as (H1 & H2 & H3).
      { rewrite Hcfg, Hq, length_app. cbn. lia. }
      rewrite H1, H2, H3, Hcfg, Hq, <- app_assoc. auto.
    + destruct (IH (enqueue m peerId s) Hc') as (H1 & H2 & H3).
      { rewrite Hcfg, Hq. exact Hlen. }
      rewrite H1, H2, H3, Hcfg, Hq.
      rewrite !take_app_le by lia. auto.
Qed.

(** C6: while the channel to a peer is not open, a message is appended to
    the peer's queue exactly when the queue is shorter than
    [maxMessageQueueSize] and is dropped otherwise; after any sequence of
    sends the queue is the first [maxMessageQueueSize] elements of the old
    queue followed by the new messages, so it is never longer than the
    maximum and the oldest messages are the ones kept. *)
Theorem sendToSpecificPeer_queue_bound (s : PeerConnection.t) (peerId : string)
    (message : NetworkMessage) (messages : list NetworkMessage) :
  channelOpen peerId s = false ->
  queuesBounded s ->
  let limit := maxMessageQueueSize (config s) in
  queueOf peerId (sendToSpecificPeer message peerId s) =
    (if (length (queueOf peerId s) <? limit)%nat
     then queueOf peerId s ++ [message] else queueOf peerId s) /\
  queueOf peerId (sendAll messages peerId s) =
    take limit (queueOf peerId s ++ messages) /\
  length (queueOf peerId (sendAll messages peerId s)) <= limit /\
  queuesBounded (sendToSpecificPeer message peerId s).
Proof.
  intros Hc Hb limit.
  assert (Hlen : length (queueOf peerId s) <= limit).
  { unfold queueOf. destruct (messageQueue s !! peerId) as [q |] eqn:E.
    - exact (Hb peerId q E).
    - cbn. lia. }
  destruct (sendAll_not_open messages peerId s Hc Hlen) as (_ & _ & Hq).
  split; [| split; [| split]].
  - rewrite sendToSpecificPeer_not_open by exact Hc. apply queueOf_enqueue.
  - exact Hq.
  - rewrite Hq, length_take. subst limit. lia.
  - apply sendToSpecificPeer_queuesBounded, Hb.
Qed.

End QueueProperties.

(** 150 pings offered to a peer that was never connected, with the default
    configuration: the first 100 are queued. *)
Lemma sendToSpecificPeer_queue_bound_witness :
  let s := PeerConnection.new NetworkTypes.DEFAULT_NETWORK_CONFIG in
  let ping := fun n : nat =>
    NetworkTypes.createBaseMessage NetworkTypes.PING "client" (Z.of_nat n) in
  let messages := map ping (seq 0 150) in
  PeerConnection.queueOf "host" (PeerConnection.sendAll messages "host" s) = map ping (seq 0 100) /\
  length (PeerConnection.queueOf "host" (PeerConnection.sendAll messages "host" s)) = 100.
Proof.
  intros s ping messages.
  destruct (sendToSpecificPeer_queue_bound s "host" (ping 0) messages eq_refl
              (new_queuesBounded _)) as (_ & Hq & _ & _).
  rewrite Hq. split; reflexivity.
Defined.

(** ** PeerConnection: reconnection attempts *)

Section ReconnectProperties.
Import NetworkTypes PeerConnection.

(** What [setupConnection] leaves alone, and what it resets. *)
Lemma setupConnection_fields (conn : DataConnection) (now : Z)
    (s : PeerConnection.t) :
  let s' := setupConnection conn now s in
  reconnectAttempts s' = <[peer conn := 0%nat]> (reconnectAttempts s) /\
  errors s' = errors s /\ reconnectTimers s' = reconnectTimers s /\
  connectionStatus s' = connectionStatus s /\ peerAlive s' = peerAlive s /\
  config s' = config s /\ reconnectCount s' = reconnectCount s.
Proof.
  unfold setupConnection, sendToSpecificPeer, enqueue. cbn.
  destruct (isHost s); cbn; [| repeat split].
  rewrite lookup_insert_eq.
  destruct (open conn); cbn; [repeat split |].
  rewrite lookup_insert_eq. cbn.
  destruct (maxMessageQueueSize (config s)); repeat split.
Qed.

Lemma closed_after_setup (peerId : string) (now : Z) (s : PeerConnection.t) :
  (0 < maxReconnectAttempts (config s))%nat ->
  connectionStatus s = CONNECTED ->
  reconnectAttempts s !! peerId = Some 0%nat ->
  let s' := handleConnectionClosed peerId now s in
  reconnectAttempts s' !! peerId = Some 1%nat /\
  errors s' = errors s /\
  reconnectTimers s' =
    reconnectTimers s ++ [(peerId, (reconnectDelay (config s) * 1)%Z)] /\
  connectionStatus s' = CONNECTED /\ peerAlive s' = peerAlive s /\
  config s' = config s /\ reconnectCount s' = S (reconnectCount s).
Proof.
  intros Hmax Hst Hatt.
  unfold handleConnectionClosed, attemptReconnection. cbn.
  rewrite Hst, Hatt. cbn.
  destruct (maxReconnectAttempts (config s)) as [| m]; [lia |]. cbn.
  rewrite lookup_insert_eq.
  repeat split; try reflexivity; [exact Hst | lia].
Qed.

Lemma removeTimer_only (peerId : string) (delay : Z) :
  removeTimer peerId [(peerId, delay)] = [].
Proof. cbn. now rewrite String.eqb_refl. Qed.

(** One failed attempt: the timer fires, the new channel is set up (which
    puts the counter back to 0), and the channel closes. *)
Lemma failed_attempt_restarts (peerId : string) (now : Z) (s : PeerConnection.t) :
  (0 < maxReconnectAttempts (config s))%nat ->
  awaitingRetry peerId s ->
  let s' := run peerId now [ReconnectTimerDue; ChannelClosed] s in
  awaitingRetry peerId s' /\ config s' = config s /\
  reconnectCount s' = S (reconnectCount s).
Proof.
  intros Hmax (Halive & Hst & Herr & Htim & Hatt).
  unfold run. cbn. unfold reconnectTimerFired.
  rewrite Htim, removeTimer_only. cbn. rewrite Halive.
  unfold handleOutgoingConnection.
  set (s1 := set_reconnectTimers [] s).
  destruct (setupConnection_fields (mkConn peerId false []) now s1)
    as (Ha & He & Ht & Hs & Hp & Hc & Hn).
  cbn in Ha, He, Ht, Hs, Hp, Hc, Hn.
  set (s2 := setupConnection (mkConn peerId false []) now s1) in *.
  destruct (closed_after_setup peerId now s2) as (Ha' & He' & Ht' & Hs' & Hp' & Hc' & Hn').
  { rewrite Hc. exact Hmax. }
  { rewrite Hs. exact Hst. }
  { rewrite Ha. apply lookup_insert_eq. }
  unfold awaitingRetry.
  rewrite Ha', He', Ht', Hs', Hp', Hc', Hn', He, Ht, Hp, Hc, Hn.
  repeat split; assumption.
Qed.

(** However many attempts fail, the next one is scheduled, each with the
    delay of a first attempt, and no error is ever reported. *)
Lemma reconnection_never_exhausted (peerId : string) (now : Z)
    (s : PeerConnection.t) (n : nat) :
  (0 < maxReconnectAttempts (config s))%nat ->
  peerAlive s = true -> connectionStatus s = CONNECTED ->
  errors s = [] -> reconnectTimers s = [] ->
  reconnectAttempts s !! peerId = Some 0%nat ->
  let s' := run peerId now (dropAndFail n) s in
  awaitingRetry peerId s' /\ config s' = config s /\
  reconnectCount s' = (reconnectCount s + S n)%nat.
Proof.
  intros Hmax Halive Hst Herr Htim Hatt.
  unfold dropAndFail, run. cbn [fold_left step].
  destruct (closed_after_setup peerId now s Hmax Hst Hatt)
    as (Ha & He & Ht & Hs & Hp & Hc & Hn).
  set (s1 := handleConnectionClosed peerId now s) in *.
  assert (H1 : awaitingRetry peerId s1).
  { unfold awaitingRetry. rewrite Ha, He, Ht, Hs, Hp, Hc, Herr, Htim, Halive.
    repeat split. }
  assert (Hmax1 : (0 < maxReconnectAttempts (config s1))%nat) by (rewrite Hc; exact Hmax).
  replace (reconnectCount s + S n)%nat with (reconnectCount s1 + n)%nat by lia.
  rewrite <- Hc. clearbody s1. clear - H1 Hmax1.
  revert s1 H1 Hmax1. induction n as [| n IH]; intros s1 H1 Hmax1.
  - cbn. rewrite Nat.add_0_r. auto.
  - cbn [repeat concat]. rewrite fold_left_app.
    destruct (failed_attempt_restarts peerId now s1 Hmax1 H1) as (H2 & Hc2 & Hn2).
    unfold run in H2, Hc2, Hn2.
    set (s2 := fold_left (step peerId now) [ReconnectTimerDue; ChannelClosed] s1) in *.
    destruct (IH s2 H2) as (H3 & Hc3 & Hn3); [rewrite Hc2; exact Hmax1 |].
    rewrite Hc3, Hn3, Hc2, Hn2. split; [exact H3 | split; [reflexivity | lia]].
Qed.

(** Without the reset, i.e. when [attemptReconnection] alone runs six times
    for the same peer, the cap works as described: five timers with delays
    2000 x 1 .. 2000 x 5, then one CONNECTION_FAILED error and no timer. *)
Lemma attemptReconnection_cap_without_reset :
  let s := Nat.iter 6 (attemptReconnection "host" 0)
             (PeerConnection.new DEFAULT_NETWORK_CONFIG) in
  reconnectTimers s =
    [("host", 2000); ("host", 4000); ("host", 6000); ("host", 8000);
     ("host", 10000)]%Z /\
  map errorType (errors s) = [CONNECTION_FAILED].
Proof. split; vm_compute; reflexivity. Qed.

End ReconnectProperties.

(** C5 on the code: a connected client loses the channel to the host and
    five reconnection attempts fail one after the other. Every attempt
    sets a new channel up, which puts the attempt counter back to 0, so the
    sixth attempt is scheduled like the first one (delay 2000 x 1), the
    counter stands at 1, and no CONNECTION_FAILED error has been
    reported. *)
Theorem reconnect_cap_never_reached :
  let s := PeerConnection.run "host" 0 (PeerConnection.dropAndFail 5)
             PeerConnection.connectedClient in
  PeerConnection.errors s = [] /\
  PeerConnection.reconnectTimers s = [("host", 2000%Z)] /\
  PeerConnection.reconnectCount s = 6 /\
  PeerConnection.reconnectAttempts s !! "host" = Some 1.
Proof.
  destruct (reconnection_never_exhausted "host" 0 PeerConnection.connectedClient 5)
    as ((_ & _ & He & Ht & Ha) & Hc & Hn); try reflexivity.
  { cbn. lia. }
  cbv zeta. rewrite Hc in Ht. auto.
Qed.

(** ** Angles: normalisation and interpolation (real arithmetic) *)

Section AngleProperties.
Import MathUtils.
Open Scope R_scope.

Lemma nat_above (x : R) : exists n : nat, x <= INR n.
Proof.
  destruct (archimed x) as [Hup _].
  destruct (Z_lt_le_dec (up x) 0) as [Hneg | Hpos].
  - exists 0%nat. apply IZR_lt in Hneg. cbn. lra.
  - exists (Z.to_nat (up x)). rewrite INR_IZR_INZ, Z2Nat.id by exact Hpos. lra.
Qed.

(** The first loop ends after at most [n] subtractions when the angle is at
    most [n] turns above pi. *)
Lemma whileAbovePi_ends (n : nat) (angle : R) :
  angle <= PI + 2 * PI * INR n ->
  exists r,
    r <= PI /\ (angle <= PI -> r = angle) /\ (PI < angle -> - PI < r) /\
    forall fuel, (n < fuel)%nat -> whileAbovePi fuel angle = Some r.
Proof.
  pose proof PI_RGT_0 as Hpi.
  revert angle. induction n as [| n IH]; intros angle Hb.
  - cbn in Hb. exists angle.
    split; [lra |]. split; [reflexivity |]. split; [intros; lra |].
    intros [| fuel] Hf; [lia |]. cbn.
    destruct (Rgt_dec angle PI); [lra | reflexivity].
  - destruct (Rgt_dec angle PI) as [Hgt | Hle].
    + destruct (IH (angle - 2 * PI)) as (r & Hr & Hsame & Hlow & Hrun).
      { rewrite S_INR in Hb. lra. }
      exists r. split; [exact Hr |]. split; [intros; lra |]. split.
      * intros _. destruct (Rle_lt_dec (angle - 2 * PI) PI) as [Hin | Hout].
        -- rewrite (Hsame Hin). lra.
        -- apply Hlow, Hout.
      * intros [| fuel] Hf; [lia |]. cbn.
        destruct (Rgt_dec angle PI); [| lra]. apply Hrun. lia.
    + exists angle.
      split; [lra |]. split; [reflexivity |]. split; [intros; lra |].
      intros [| fuel] Hf; [lia |]. cbn.
      destruct (Rgt_dec angle PI); [lra | reflexivity].
Qed.

Lemma whileBelowMinusPi_ends (n : nat) (angle : R) :
  - PI - 2 * PI * INR n <= angle ->
  exists r,
    - PI <= r /\ (- PI <= angle -> r = angle) /\ (angle < - PI -> r < PI) /\
    forall fuel, (n < fuel)%nat -> whileBelowMinusPi fuel angle = Some r.
Proof.
  pose proof PI_RGT_0 as Hpi.
  revert angle. induction n as [| n IH]; intros angle Hb.
  - cbn in Hb. exists angle.
    split; [lra |]. split; [reflexivity |]. split; [intros; lra |].
    intros [| fuel] Hf; [lia |]. cbn.
    destruct (Rlt_dec angle (- PI)); [lra | reflexivity].
  - destruct (Rlt_dec angle (- PI)) as [Hlt | Hge].
    + destruct (IH (angle + 2 * PI)) as (r & Hr & Hsame & Hhigh & Hrun).
      { rewrite S_INR in Hb. lra. }
      exists r. split; [exact Hr |]. split; [intros; lra |]. split.
      * intros _. destruct (Rle_lt_dec (- PI) (angle + 2 * PI)) as [Hin | Hout].
        -- rewrite (Hsame Hin). lra.
        -- apply Hhigh, Hout.
      * intros [| fuel] Hf; [lia |]. cbn.
        destruct (Rlt_dec angle (- PI)); [| lra]. apply Hrun. lia.
    + exists angle.
      split; [lra |]. split; [reflexivity |]. split; [intros; lra |].
      intros [| fuel] Hf; [lia |]. cbn.
      destruct (Rlt_dec angle (- PI)); [lra | reflexivity].
Qed.

(** [normalizeAngle] returns, and what it returns lies in the closed
    interval from -pi to pi. *)
Lemma normalizeAngle_total (angle : R) :
  exists (fuel : nat) (r : R),
    - PI <= r <= PI /\
    forall fuel', (fuel <= fuel')%nat -> normalizeAngle fuel' angle = Some r.
Proof.
  pose proof PI_RGT_0 as Hpi.
  destruct (nat_above (Rabs angle)) as [n Hn].
  assert (Hn0 : 0 <= INR n) by apply pos_INR.
  assert (Hturn : INR n <= 2 * PI * INR n).
  { pose proof PI2_3_2. nra. }
  assert (Habs : - INR n <= angle <= INR n).
  { pose proof (Rle_abs angle). pose proof (Rle_abs (- angle)).
    rewrite Rabs_Ropp in *. lra. }
  destruct (whileAbovePi_ends n angle) as (r1 & Hr1 & Hsame1 & Hlow1 & Hrun1); [lra |].
  destruct (whileBelowMinusPi_ends n r1) as (r2 & Hr2 & Hsame2 & Hhigh2 & Hrun2).
  { destruct (Rle_lt_dec angle PI) as [Hin | Hout].
    - rewrite (Hsame1 Hin). lra.
    - specialize (Hlow1 Hout). lra. }
  exists (S n), r2. split.
  - split; [exact Hr2 |].
    destruct (Rle_lt_dec (- PI) r1) as [Hin | Hout].
    + rewrite (Hsame2 Hin). exact Hr1.
    + specialize (Hhigh2 Hout). lra.
  - intros fuel' Hf. unfold normalizeAngle.
    rewrite Hrun1 by lia. apply Hrun2. lia.
Qed.



End AngleProperties.


Section InterpolationProperties.
Import GameSync.
Open Scope R_scope.

(** C8 (as the code has it): the returned angle is [from] plus [alpha]
    times the corrected difference; when [to] and [from] are at most three
    half-turns apart (as any two normalised rotations are), one correction
    by a full turn brings the difference into the closed interval
    [-pi, pi]; interpolating from 3 to -3 at one half gives pi. *)
Theorem interpolateAngle_single_correction (from to alpha : R) :
  Rabs (to - from) <= 3 * PI ->
  interpolateAngle from to alpha = from + interpolateDiff from to * alpha /\
  - PI <= interpolateDiff from to <= PI /\
  (interpolateDiff from to = to - from \/
   interpolateDiff from to = to - from - 2 * PI \/
   interpolateDiff from to = to - from + 2 * PI) /\
  interpolateAngle 3 (-3) (1 / 2) = PI.
Proof.
  intros Habs. pose proof PI_RGT_0 as Hpi. pose proof PI_4 as Hpi4.
  assert (Hrange : - (3 * PI) <= to - from <= 3 * PI).
  { pose proof (Rle_abs (to - from)). pose proof (Rle_abs (- (to - from))).
    rewrite Rabs_Ropp in *. lra. }
  split; [reflexivity |].
  unfold interpolateAngle, interpolateDiff.
  split; [| split].
  - destruct (Rgt_dec (to - from) PI);
      match goal with |- context [Rlt_dec ?d _] => destruct (Rlt_dec d (- PI)) end;
      lra.
  - destruct (Rgt_dec (to - from) PI);
      match goal with |- context [Rlt_dec ?d _] => destruct (Rlt_dec d (- PI)) end;
      lra.
  - destruct (Rgt_dec (-3 - 3) PI); [lra |].
    destruct (Rlt_dec (-3 - 3) (- PI)); lra.
Qed.

(** C8 (as stated) fails: from pi to 0 the difference stays -pi, outside
    the half-open interval; and for angles further apart (from 0 to 4 pi,
    the same direction) the corrected difference is 2 pi, a full turn. *)
Lemma interpolateDiff_outside_half_open :
  interpolateDiff PI 0 = - PI /\
  ~ (- PI < interpolateDiff PI 0 <= PI) /\
  interpolateDiff 0 (4 * PI) = 2 * PI /\
  ~ (- PI < interpolateDiff 0 (4 * PI) <= PI).
Proof.
  pose proof PI_RGT_0 as Hpi.
  assert (H1 : interpolateDiff PI 0 = - PI).
  { unfold interpolateDiff.
    destruct (Rgt_dec (0 - PI) PI); [lra |].
    destruct (Rlt_dec (0 - PI) (- PI)); lra. }
  assert (H2 : interpolateDiff 0 (4 * PI) = 2 * PI).
  { unfold interpolateDiff.
    destruct (Rgt_dec (4 * PI - 0) PI); [| lra].
    destruct (Rlt_dec (4 * PI - 0 - 2 * PI) (- PI)); lra. }
  rewrite H1, H2. repeat split; lra.
Qed.

End InterpolationProperties.

(** From 3 to -3 radians, one half of the way. *)
Lemma interpolateAngle_single_correction_witness :
  (- PI <= GameSync.interpolateDiff 3 (-3) <= PI)%R /\
  GameSync.interpolateAngle 3 (-3) (1 / 2) = PI.
Proof.
  assert (Hclose : (Rabs (-3 - 3) <= 3 * PI)%R).
  { pose proof PI2_3_2. rewrite Rabs_left by lra. lra. }
  destruct (interpolateAngle_single_correction 3 (-3) (1 / 2) Hclose)
    as (_ & Hin & _ & Hpi).
  split; assumption.
Defined.

(** * Further properties of the code *)

(** ** GameSync: what a sequence of snapshots leaves behind *)

Section GameSyncRunProperties.
Import GameSync.
Open Scope Z_scope.

Context {LocalState Snapshot : Type}.
Variable applyReceivedGameState : Snapshot -> LocalState -> LocalState.

Abbreviation handle' := (handleGameStateUpdate applyReceivedGameState).
Abbreviation reachable' := (GameSync.reachable applyReceivedGameState).
Abbreviation handleAll' := (handleAll applyReceivedGameState).

Lemma handleAll_reachable (messages : list (GameStateUpdateMessage Snapshot))
    (s : GameSync.t LocalState Snapshot) :
  reachable' s -> reachable' (handleAll' messages s).
Proof.
  revert s. induction messages as [| m ms IH]; intros s Hr; [exact Hr |].
  cbn. apply IH. apply GameSync.reachable_update, Hr.
Qed.

(** The number read back for a sender after one more snapshot. *)
Lemma lastSequence_step (s : GameSync.t LocalState Snapshot)
    (message : GameStateUpdateMessage Snapshot) (sender : string) :
  reachable' s ->
  jsOrZero (lastProcessedSequence (handle' message s) !! sender) =
    if decide (senderId message = sender)
    then Z.max (jsOrZero (lastProcessedSequence s !! sender)) (sequenceNumber message)
    else jsOrZero (lastProcessedSequence s !! sender).
Proof.
  intros Hr.
  pose proof (jsOrZero_positive _ (reachable_sequences_positive _ s Hr (senderId message)))
    as [Hnn _].
  unfold handleGameStateUpdate.
  destruct (Z.leb_spec (sequenceNumber message)
              (jsOrZero (lastProcessedSequence s !! senderId message))) as [Hle | Hgt].
  - destruct (decide (senderId message = sender)) as [Heq | Hne]; [| reflexivity].
    subst sender. lia.
  - cbn. destruct (decide (senderId message = sender)) as [Heq | Hne].
    + subst sender. rewrite lookup_insert_eq. cbn.
      destruct (Z.eqb_spec (sequenceNumber message) 0); lia.
    + rewrite lookup_insert_ne by exact Hne. reflexivity.
Qed.

(** X1: a snapshot numbered 0 or below is never accepted, not even from a
    sender nothing was accepted from before. *)
Theorem handleGameStateUpdate_rejects_nonpositive
    (s : GameSync.t LocalState Snapshot)
    (message : GameStateUpdateMessage Snapshot) :
  reachable' s -> sequenceNumber message <= 0 -> handle' message s = s.
Proof.
  intros Hr Hseq.
  pose proof (jsOrZero_positive _ (reachable_sequences_positive _ s Hr (senderId message)))
    as [Hnn _].
  unfold handleGameStateUpdate.
  destruct (Z.leb_spec (sequenceNumber message)
              (jsOrZero (lastProcessedSequence s !! senderId message)));
    [reflexivity | lia].
Qed.

(** X2: after any run of snapshot messages on a fresh manager, the number
    read back for a sender is the largest sequence number that sender
    sent, or 0 when it sent none above 0. *)
Theorem handleAll_keeps_maximum
    (messages : list (GameStateUpdateMessage Snapshot)) (sender : string)
    (host : bool) (state : LocalState) :
  jsOrZero (lastProcessedSequence (handleAll' messages (GameSync.new host state)) !! sender)
  = fold_right Z.max 0
      (map sequenceNumber
         (filter (fun message => senderId message = sender) messages)).
Proof.
  assert (Hgen : forall (ms : list (GameStateUpdateMessage Snapshot)) s,
             reachable' s ->
             jsOrZero (lastProcessedSequence (handleAll' ms s) !! sender)
             = Z.max (jsOrZero (lastProcessedSequence s !! sender))
                 (fold_right Z.max 0
                    (map sequenceNumber
                       (filter (fun message => senderId message = sender) ms)))).
  { induction ms as [| m ms IH]; intros s Hr.
    - cbn.
      pose proof (jsOrZero_positive _ (reachable_sequences_positive _ s Hr sender))
        as [Hnn _]. lia.
    - cbn [handleAll fold_left]. fold (handleAll' ms (handle' m s)).
      rewrite IH by (apply GameSync.reachable_update, Hr).
      rewrite lastSequence_step by exact Hr.
      rewrite filter_cons.
      destruct (decide (senderId m = sender)); cbn; lia. }
  rewrite Hgen by apply GameSync.reachable_new.
  cbn. rewrite lookup_empty. cbn.
  assert (Hnn : forall l, 0 <= fold_right Z.max 0 l).
  { induction l; cbn; lia. }
  specialize (Hnn (map sequenceNumber
                     (filter (fun message => senderId message = sender) messages))).
  lia.
Qed.

Lemma pushHistory_length (message : GameStateUpdateMessage Snapshot)
    (s : GameSync.t LocalState Snapshot) :
  (length (stateHistory s) <= maxHistorySize s)%nat ->
  (length (pushHistory message s) <= maxHistorySize s)%nat.
Proof.
  intros Hlen. unfold pushHistory.
  destruct (Nat.ltb_spec (maxHistorySize s) (length (stateHistory s ++ [message])))
    as [Hover | Hfit]; [| exact Hfit].
  rewrite length_app in Hover. cbn in Hover.
  destruct (stateHistory s) as [| h hs]; cbn in *; [lia |].
  rewrite length_app. cbn. lia.
Qed.

(** X3: the history never holds more than [maxHistorySize] (60)
    snapshots, whatever is received; an accepted snapshot becomes its last
    entry and, when the history was full, the oldest entry is the one
    that goes. *)
Theorem stateHistory_bounded
    (messages : list (GameStateUpdateMessage Snapshot))
    (message : GameStateUpdateMessage Snapshot)
    (host : bool) (state : LocalState) :
  let s := handleAll' messages (GameSync.new host state) in
  (length (stateHistory s) <= 60)%nat /\
  (jsOrZero (lastProcessedSequence s !! senderId message) < sequenceNumber message ->
   last (stateHistory (handle' message s)) = Some message /\
   ((length (stateHistory s) = 60)%nat ->
    stateHistory (handle' message s) = tail (stateHistory s) ++ [message])).
Proof.
  assert (Hgen : forall (ms : list (GameStateUpdateMessage Snapshot)) s,
             (length (stateHistory s) <= maxHistorySize s)%nat ->
             (length (stateHistory (handleAll' ms s)) <= maxHistorySize s)%nat /\
             maxHistorySize (handleAll' ms s) = maxHistorySize s).
  { induction ms as [| m ms IH]; intros s Hlen; [split; [exact Hlen | reflexivity] |].
    cbn [handleAll fold_left]. fold (handleAll' ms (handle' m s)).
    assert (Hstep : (length (stateHistory (handle' m s)) <= maxHistorySize (handle' m s))%nat
                    /\ maxHistorySize (handle' m s) = maxHistorySize s).
    { unfold handleGameStateUpdate.
      destruct (sequenceNumber m <=? jsOrZero (lastProcessedSequence s !! senderId m));
        [split; [exact Hlen | reflexivity] |].
      cbn. split; [apply pushHistory_length, Hlen | reflexivity]. }
    destruct Hstep as [Hl Hm].
    destruct (IH _ Hl) as [Hl' Hm']. rewrite Hm in *. split; assumption. }
  intros s.
  destruct (Hgen messages (GameSync.new host state)) as [Hlen Hmax]; [cbn; lia |].
  fold s in Hlen, Hmax. cbn in Hlen, Hmax.
  split; [exact Hlen |].
  intros Hnew. unfold handleGameStateUpdate.
  apply Z.leb_gt in Hnew. rewrite Hnew. cbn. unfold pushHistory. rewrite Hmax.
  split.
  - destruct (Nat.ltb_spec 60 (length (stateHistory s ++ [message]))) as [Hover | Hfit].
    + rewrite length_app in Hover. cbn in Hover.
      destruct (stateHistory s) as [| h hs] eqn:E; cbn in *; [lia |].
      apply last_snoc.
    + apply last_snoc.
  - intros Hfull.
    destruct (Nat.ltb_spec 60 (length (stateHistory s ++ [message]))) as [Hover | Hfit].
    + destruct (stateHistory s) as [| h hs]; cbn in *; [lia | reflexivity].
    + rewrite length_app in Hfit. cbn in Hfit. lia.
Qed.

End GameSyncRunProperties.

(** A client that accepted snapshots 5 and 7 from the host: snapshot 0 is
    discarded. *)
Lemma handleGameStateUpdate_rejects_nonpositive_witness :
  let apply := fun (snapshot : Z) (_ : Z) => snapshot in
  let update := fun n => GameSync.mkUpdate n "host" (10 * n)%Z n in
  let s := GameSync.handleAll apply [update 5%Z; update 7%Z] (GameSync.new false 0%Z) in
  GameSync.handleGameStateUpdate apply (update 0%Z) s = s.
Proof.
  intros apply update s.
  apply (handleGameStateUpdate_rejects_nonpositive apply s (update 0%Z)).
  - apply handleAll_reachable, GameSync.reachable_new.
  - reflexivity.
Defined.

(** ** GameSync: the pair of snapshots chosen for interpolation *)

Section InterpolationPairProperties.
Import GameSync.
Open Scope Z_scope.

Context {LocalState Snapshot : Type}.

Lemma findInterpolationPair_adjacent (targetTime : Z)
    (history : list (GameStateUpdateMessage Snapshot))
    (fromState toState : GameStateUpdateMessage Snapshot) :
  findInterpolationPair targetTime history = Some (fromState, toState) ->
  timestamp fromState <= targetTime <= timestamp toState /\
  exists before after, history = before ++ fromState :: toState :: after.
Proof.
  induction history as [| current rest IH]; [discriminate |].
  destruct rest as [| next rest']; [discriminate |].
  cbn [findInterpolationPair].
  destruct ((timestamp current <=? targetTime) && (targetTime <=? timestamp next))
    eqn:E.
  - intros [= <- <-]. apply andb_true_iff in E as [E1 E2].
    apply Z.leb_le in E1, E2. split; [lia |].
    exists [], rest'. reflexivity.
  - intros H. destruct (IH H) as (Hb & before & after & Heq).
    split; [exact Hb |].
    exists (current :: before), after. cbn. rewrite Heq. reflexivity.
Qed.

(** X4: the two snapshots that [interpolateState] blends are neighbours in
    the history whose timestamps enclose the target time (render time
    minus 100 ms); the blending factor lies between 0 and 1 when their
    timestamps differ and is a quotient by zero when they are equal. *)
Theorem interpolationPair_encloses_target (renderTime : Z)
    (s : GameSync.t LocalState Snapshot)
    (fromState toState : GameStateUpdateMessage Snapshot) :
  interpolationPair renderTime s = Some (fromState, toState) ->
  timestamp fromState <= renderTime - 100 <= timestamp toState /\
  (exists before after,
     stateHistory s = before ++ fromState :: toState :: after) /\
  (timestamp fromState < timestamp toState ->
     exists alpha,
       interpolationAlpha (renderTime - 100) fromState toState = Some alpha /\
       (0 <= alpha <= 1)%R) /\
  (timestamp fromState = timestamp toState ->
     interpolationAlpha (renderTime - 100) fromState toState = None).
Proof.
  unfold interpolationPair.
  destruct (length (stateHistory s) <? 2)%nat; [discriminate |].
  intros H. apply findInterpolationPair_adjacent in H as (Hb & Hadj).
  split; [exact Hb |]. split; [exact Hadj |].
  unfold interpolationAlpha. split.
  - intros Hlt.
    destruct (Z.eqb_spec (timestamp toState - timestamp fromState) 0); [lia |].
    eexists. split; [reflexivity |].
    assert (Hd : (0 < IZR (timestamp toState - timestamp fromState))%R)
      by (apply IZR_lt; lia).
    assert (Hn : (0 <= IZR (renderTime - 100 - timestamp fromState))%R)
      by (apply IZR_le; lia).
    assert (Hm : (IZR (renderTime - 100 - timestamp fromState)
                  <= IZR (timestamp toState - timestamp fromState))%R)
      by (apply IZR_le; lia).
    split.
    + apply Rmult_le_pos; [exact Hn |]. left. apply Rinv_0_lt_compat, Hd.
    + apply (Rmult_le_reg_r (IZR (timestamp toState - timestamp fromState)));
        [exact Hd |].
      unfold Rdiv. rewrite Rmult_assoc, Rinv_l by lra. lra.
  - intros Heq.
    destruct (Z.eqb_spec (timestamp toState - timestamp fromState) 0); [reflexivity | lia].
Qed.

End InterpolationPairProperties.

(** Snapshots stamped 1000 and 1050, rendered at 1120: the target 1020 is
    enclosed and the factor is 20/50. *)
Lemma interpolationPair_encloses_target_witness :
  let update := fun n => GameSync.mkUpdate n "host" tt n in
  let s := GameSync.mk tt false ∅ [update 1000%Z; update 1050%Z] 60 in
  (1000 <= 1120 - 100 <= 1050)%Z /\
  exists alpha,
    GameSync.interpolationAlpha (1120 - 100) (update 1000%Z) (update 1050%Z)
      = Some alpha /\ (0 <= alpha <= 1)%R.
Proof.
  intros update s.
  destruct (interpolationPair_encloses_target 1120 s (update 1000%Z) (update 1050%Z)
              eq_refl) as (Hb & _ & Halpha & _).
  split; [exact Hb |]. apply Halpha. reflexivity.
Defined.

(** ** Ship: health, life and position over any sequence of calls *)

Section ShipLifeProperties.
Import Ship.
Open Scope Z_scope.

(** Health is between 0 and the maximum, and a living ship has health
    left. *)
Definition healthInvariant (s : Ship.t) : Prop :=
  0 < maxHealth s /\ 0 <= health s <= maxHealth s /\
  (isAlive s = true -> 0 < health s).

Lemma call_keeps_health (s : Ship.t) (c : Call) :
  damaging c -> healthInvariant s -> healthInvariant (call s c).
Proof.
  intros Hd (Hmax & Hrange & Halive).
  destruct c as [damage currentTime | pos currentTime | currentTime | i |];
    unfold healthInvariant; cbn -[Z.leb Z.sub].
  - cbn in Hd. unfold takeDamage.
    destruct (negb (isAlive s) || isInvulnerable currentTime s);
      [cbn; auto |].
    cbn -[Z.leb Z.sub].
    destruct (Z.leb_spec (health s - damage) 0); cbn -[Z.sub].
    + repeat split; try lia; discriminate.
    + repeat split; lia.
  - repeat split; lia.
  - auto.
  - auto.
  - auto.
Qed.

(** X5: from its creation on, whatever damage (not negative), respawns,
    shots, inputs and boundary wraps a ship goes through, its health stays
    between 0 and [maxHealth], and while it is alive its health is above
    0. *)
Theorem ship_health_within_bounds (playerId : Z) (spawnPosition : Vector2D.t)
    (calls : list Call) :
  Forall damaging calls ->
  let s := fold_left call calls (Ship.new playerId spawnPosition) in
  0 <= health s <= maxHealth s /\ (isAlive s = true -> 0 < health s) /\
  (health s = 0 -> isAlive s = false).
Proof.
  intros Hd s.
  assert (Hinv : healthInvariant s).
  { subst s.
    assert (H0 : healthInvariant (Ship.new playerId spawnPosition)).
    { repeat split; cbn; try lia. discriminate. }
    revert H0. generalize (Ship.new playerId spawnPosition).
    induction Hd as [| c cs Hc Hcs IH]; intros s0 H0; [exact H0 |].
    cbn. apply IH, call_keeps_health; assumption. }
  destruct Hinv as (_ & Hrange & Halive).
  split; [exact Hrange |]. split; [exact Halive |].
  intros Hz. destruct (isAlive s); [specialize (Halive eq_refl); lia | reflexivity].
Qed.

End ShipLifeProperties.

(** A ship hit four times by 25 points and respawned: dead at health 0
    after the fourth hit, back at 100 after the respawn. *)
Lemma ship_health_within_bounds_witness :
  let hits := [Ship.CallTakeDamage 25 10; Ship.CallTakeDamage 25 20;
               Ship.CallTakeDamage 25 30; Ship.CallTakeDamage 25 40] in
  let s := fold_left Ship.call (hits ++ [Ship.CallRespawn (Vector2D.mk 200 300) 3040])
             (Ship.new 0 (Vector2D.mk 200 300)) in
  (0 <= Ship.health s <= Ship.maxHealth s)%Z /\
  (Ship.isAlive s = true -> (0 < Ship.health s)%Z).
Proof.
  intros hits s.
  assert (Hd : Forall Ship.damaging
                 (hits ++ [Ship.CallRespawn (Vector2D.mk 200 300) 3040])).
  { repeat constructor; cbn; lia. }
  destruct (ship_health_within_bounds 0 (Vector2D.mk 200 300) _ Hd) as (H1 & H2 & _).
  split; [exact H1 | exact H2].
Defined.

(** ** Ship: wrapping at the canvas edge *)

Section BoundaryProperties.
Import Ship.
Open Scope float_scope.

(** One axis of [wrapAroundBounds], for limits that compare as
    [lo <= hi] does. *)
Lemma wrap_axis (p lo hi : float) :
  PrimFloat.ltb hi lo = false -> PrimFloat.ltb lo lo = false ->
  PrimFloat.ltb hi hi = false ->
  let p1 := if PrimFloat.ltb p lo then hi else p in
  let p2 := if PrimFloat.ltb hi p1 then lo else p1 in
  PrimFloat.ltb p2 lo = false /\ PrimFloat.ltb hi p2 = false /\
  (PrimFloat.ltb p lo || PrimFloat.ltb hi p = false -> p2 = p).
Proof.
  intros Hhl Hll Hhh. cbv zeta.
  destruct (PrimFloat.ltb p lo) eqn:E1.
  - rewrite Hhh. repeat split; try assumption. discriminate.
  - destruct (PrimFloat.ltb hi p) eqn:E2.
    + repeat split; try assumption. discriminate.
    + repeat split; assumption || reflexivity.
Qed.

(** X6: after [handleBoundaries] no coordinate of the ship compares below
    0 or above the canvas size (800 x 600), and a position that already
    passed these four tests is left as it is; health, life and velocity
    are untouched. *)
Theorem handleBoundaries_inside_canvas (this : Ship.t) :
  let p := position this in
  let p' := position (handleBoundaries this) in
  PrimFloat.ltb (Vector2D.x p') 0 = false /\
  PrimFloat.ltb 800 (Vector2D.x p') = false /\
  PrimFloat.ltb (Vector2D.y p') 0 = false /\
  PrimFloat.ltb 600 (Vector2D.y p') = false /\
  ((PrimFloat.ltb (Vector2D.x p) 0 || PrimFloat.ltb 800 (Vector2D.x p) = false) ->
   (PrimFloat.ltb (Vector2D.y p) 0 || PrimFloat.ltb 600 (Vector2D.y p) = false) ->
   p' = p) /\
  health (handleBoundaries this) = health this /\
  isAlive (handleBoundaries this) = isAlive this /\
  velocity (handleBoundaries this) = velocity this.
Proof.
  destruct this as [[px py] v a r av h mh al ls iu pid col inp sz cr].
  cbv zeta.
  change (position (handleBoundaries _))
    with (Movement.wrapAroundBounds (Vector2D.mk px py) canvasBounds).
  unfold Movement.wrapAroundBounds.
  change (Movement.orZero (Movement.x canvasBounds)) with 0.
  change (Movement.orZero (Movement.y canvasBounds)) with 0.
  change (0 + Movement.width canvasBounds) with 800.
  change (0 + Movement.height canvasBounds) with 600.
  cbn [Vector2D.x Vector2D.y position].
  destruct (wrap_axis px 0 800 eq_refl eq_refl eq_refl) as (Hx1 & Hx2 & Hx3).
  destruct (wrap_axis py 0 600 eq_refl eq_refl eq_refl) as (Hy1 & Hy2 & Hy3).
  cbv zeta in Hx1, Hx2, Hx3, Hy1, Hy2, Hy3.
  repeat split; try assumption.
  intros Hx Hy. rewrite (Hx3 Hx), (Hy3 Hy). reflexivity.
Qed.

End BoundaryProperties.

(** ** GameState: collision resolution *)

Section CollisionProperties.
Import GameState.
Open Scope Z_scope.

Variable KILL_SCORE : Z.
Variable RESPAWN_DELAY : Z.

(** A hit is only ever registered by an active projectile on a living ship
    of another player. *)
Lemma checkShipCollision_true (p : Projectile.t) (s : Ship.t) :
  Projectile.checkShipCollision p s = true ->
  Projectile.isActive p = true /\ Ship.isAlive s = true /\
  Ship.playerId s <> Projectile.ownerId p.
Proof.
  unfold Projectile.checkShipCollision.
  destruct (Projectile.isActive p); [| discriminate].
  destruct (Ship.isAlive s); [| discriminate].
  destruct (Z.eqb_spec (Ship.playerId s) (Projectile.ownerId p)); [discriminate |].
  auto.
Qed.

Lemma takeDamage_playerId (d t : Z) (s : Ship.t) :
  Ship.playerId (snd (Ship.takeDamage d t s)) = Ship.playerId s.
Proof.
  unfold Ship.takeDamage.
  destruct (negb (Ship.isAlive s) || Ship.isInvulnerable t s); [reflexivity |].
  cbn -[Z.leb Z.sub].
  destruct (Ship.health s - d <=? 0); reflexivity.
Qed.

(** What one pass of the inner loop may do to an entry of the ship map:
    nothing, or the damage of a projectile that registered a hit on it. *)
Definition hitBy (p : Projectile.t) (now : Z) (e e' : Z * Ship.t) : Prop :=
  fst e' = fst e /\
  (snd e' = snd e \/
   Projectile.checkShipCollision p (snd e) = true /\
   snd e' = snd (Ship.takeDamage (Projectile.damage p) now (snd e))).

Lemma hitFirstShip_entries (p : Projectile.t) (now : Z) (ss : JsMap.t Ship.t) :
  Forall2 (hitBy p now) ss (snd (hitFirstShip p now ss)).
Proof.
  induction ss as [| [key ship] rest IH]; cbn; [constructor |].
  destruct (Projectile.checkShipCollision p ship) eqn:E; cbn.
  - constructor.
    + split; [reflexivity |]. right. split; [exact E | reflexivity].
    + apply Forall2_same_length_lookup. split; [reflexivity |].
      intros i x y Hx Hy. rewrite Hx in Hy. injection Hy as <-.
      split; [reflexivity | left; reflexivity].
  - destruct (hitFirstShip p now rest) as [result rest'] eqn:Er. cbn in *.
    constructor; [| exact IH].
    split; [reflexivity | left; reflexivity].
Qed.

(** What collision resolution may do to an entry of the ship map, seen from
    the projectiles [ps] that were in flight when it started. *)
Definition spared (ps : list Projectile.t) (e e' : Z * Ship.t) : Prop :=
  fst e' = fst e /\
  Ship.playerId (snd e') = Ship.playerId (snd e) /\
  (Ship.isAlive (snd e) = false -> snd e' = snd e) /\
  ((forall p, p ∈ ps -> Projectile.isActive p = true ->
      Projectile.ownerId p = Ship.playerId (snd e)) ->
   snd e' = snd e).

(** A projectile changes only by being switched off. *)
Definition spent (p p' : Projectile.t) : Prop :=
  p' = p \/ (Projectile.isActive p = true /\ p' = Projectile.destroy p).

Lemma handleShipDestroyed_keeps (ship : Ship.t) (killerId : Z) (g : GameState.t) :
  ships (handleShipDestroyed KILL_SCORE RESPAWN_DELAY ship killerId g) = ships g /\
  projectiles (handleShipDestroyed KILL_SCORE RESPAWN_DELAY ship killerId g)
    = projectiles g.
Proof.
  unfold handleShipDestroyed.
  destruct (JsMap.get (Ship.playerId ship) (players g));
    destruct (JsMap.get killerId (players g));
    try destruct (killerId =? Ship.playerId ship); split; reflexivity.
Qed.

Lemma collideProjectile_step (now : Z) (g0 g : GameState.t) (i : nat) :
  Forall2 (spared (projectiles g0)) (ships g0) (ships g) ->
  Forall2 spent (projectiles g0) (projectiles g) ->
  Forall2 (spared (projectiles g0)) (ships g0)
    (ships (collideProjectile KILL_SCORE RESPAWN_DELAY now g i)) /\
  Forall2 spent (projectiles g0)
    (projectiles (collideProjectile KILL_SCORE RESPAWN_DELAY now g i)).
Proof.
  intros Hs Hp. unfold collideProjectile.
  destruct (projectiles g !! i) as [p |] eqn:Ei; [| split; assumption].
  destruct (Projectile.isActive p) eqn:Eact; cbn [negb]; [| split; assumption].
  pose proof (hitFirstShip_entries p now (ships g)) as Hhit.
  destruct (hitFirstShip p now (ships g)) as [[[wasKilled ship] |] ships'] eqn:Eh;
    [| split; assumption].
  cbn [snd] in Hhit.
  (* the projectile at [i] is the one that was in flight at the start *)
  destruct (Forall2_lookup_r _ _ _ _ _ Hp Ei) as (p0 & Ei0 & Hspent).
  assert (Hp0 : p = p0).
  { destruct Hspent as [H | [_ H]]; [exact H |].
    subst p. cbn in Eact. discriminate. }
  subst p0.
  assert (Hin : p ∈ projectiles g0) by (eapply list_elem_of_lookup_2; exact Ei0).
  assert (Hships : Forall2 (spared (projectiles g0)) (ships g0) ships').
  { apply Forall2_same_length_lookup. split.
    - rewrite (Forall2_length _ _ _ Hs). apply (Forall2_length _ _ _ Hhit).
    - intros j e0 e' Hj0 Hj'.
      destruct (Forall2_lookup_l _ _ _ _ _ Hs Hj0) as (e & Hj & Hsp).
      destruct (Forall2_lookup_l _ _ _ _ _ Hhit Hj) as (e'' & Hj'' & Hfst & Hcase).
      rewrite Hj' in Hj''. injection Hj'' as <-.
      destruct Hsp as (Hk & Hid & Hdead & Hown).
      destruct Hcase as [Hsame | [Hcol Hdmg]].
      + unfold spared. rewrite Hfst, Hsame. auto.
      + apply checkShipCollision_true in Hcol as (_ & Halive & Hne).
        unfold spared. rewrite Hfst, Hdmg, takeDamage_playerId.
        split; [exact Hk |]. split; [exact Hid |]. split.
        * intros Hd. rewrite (Hdead Hd) in Halive. congruence.
        * intros Hall. exfalso. apply Hne.
          rewrite (Hall p Hin Eact), <- Hid. reflexivity. }
  assert (Hprojs : Forall2 spent (projectiles g0)
                     (<[i := Projectile.onCollision p]> (projectiles g))).
  { apply Forall2_same_length_lookup. split.
    - rewrite length_insert. apply (Forall2_length _ _ _ Hp).
    - intros j q0 q' Hj0 Hj'.
      destruct (decide (i = j)) as [Heq | Hne].
      + subst j. rewrite list_lookup_insert_eq in Hj'
          by (eapply lookup_lt_Some; exact Ei).
        injection Hj' as <-. rewrite Ei0 in Hj0. injection Hj0 as <-.
        right. split; [exact Eact | reflexivity].
      + rewrite list_lookup_insert_ne in Hj' by exact Hne.
        destruct (Forall2_lookup_l _ _ _ _ _ Hp Hj0) as (q & Hq & Hsq).
        rewrite Hj' in Hq. injection Hq as <-. exact Hsq. }
  destruct wasKilled.
  - match goal with
    | |- context [handleShipDestroyed _ _ ?sh ?k ?gg] =>
        destruct (handleShipDestroyed_keeps sh k gg) as [Hk1 Hk2]
    end.
    rewrite Hk1, Hk2. split; assumption.
  - split; assumption.
Qed.

Lemma spared_refl_all (ps : list Projectile.t) (ss : JsMap.t Ship.t) :
  Forall2 (spared ps) ss ss.
Proof.
  apply Forall2_same_length_lookup. split; [reflexivity |].
  intros i x y Hx Hy. rewrite Hx in Hy. injection Hy as <-.
  unfold spared. auto.
Qed.

Lemma spent_refl_all (ps : list Projectile.t) : Forall2 spent ps ps.
Proof.
  apply Forall2_same_length_lookup. split; [reflexivity |].
  intros i x y Hx Hy. rewrite Hx in Hy. injection Hy as <-. left. reflexivity.
Qed.

Lemma handleCollisions_relates (now : Z) (g : GameState.t) :
  let g' := handleCollisions KILL_SCORE RESPAWN_DELAY now g in
  Forall2 (spared (projectiles g)) (ships g) (ships g') /\
  Forall2 spent (projectiles g) (projectiles g').
Proof.
  unfold handleCollisions.
  generalize (seq 0 (length (projectiles g))). intros indices.
  assert (Hgen : forall g1,
             Forall2 (spared (projectiles g)) (ships g) (ships g1) ->
             Forall2 spent (projectiles g) (projectiles g1) ->
             Forall2 (spared (projectiles g)) (ships g)
               (ships (fold_left (collideProjectile KILL_SCORE RESPAWN_DELAY now)
                         indices g1)) /\
             Forall2 spent (projectiles g)
               (projectiles (fold_left (collideProjectile KILL_SCORE RESPAWN_DELAY now)
                               indices g1))).
  { induction indices as [| i rest IH]; intros g1 Hs Hp; [split; assumption |].
    cbn. destruct (collideProjectile_step now g g1 i Hs Hp) as [Hs' Hp'].
    apply IH; assumption. }
  apply Hgen; [apply spared_refl_all | apply spent_refl_all].
Qed.

(** X7: collision resolution leaves a ship exactly as it was, at its
    place in the ship map, when the ship was dead at the start or when its
    player owns every projectile that was active at the start. *)
Theorem handleCollisions_spares_own_and_dead (now : Z) (g : GameState.t)
    (i : nat) (key : Z) (ship : Ship.t) :
  ships g !! i = Some (key, ship) ->
  Ship.isAlive ship = false \/
  (forall p, p ∈ projectiles g -> Projectile.isActive p = true ->
     Projectile.ownerId p = Ship.playerId ship) ->
  ships (handleCollisions KILL_SCORE RESPAWN_DELAY now g) !! i = Some (key, ship).
Proof.
  intros Hi Hcase.
  pose proof (handleCollisions_relates now g) as Hrel. cbv zeta in Hrel.
  destruct Hrel as [Hs _].
  destruct (Forall2_lookup_l _ _ _ _ _ Hs Hi) as ([key' ship'] & Hi' & Hk & _ & Hdead & Hown).
  cbn in Hk, Hdead, Hown. etransitivity; [exact Hi' |]. subst key'.
  destruct Hcase as [Hd | Ho]; [rewrite (Hdead Hd) | rewrite (Hown Ho)]; reflexivity.
Qed.

(** X8: the projectiles left after collision resolution and clean-up are
    active, and each of them is one of the projectiles that were in flight
    before, unchanged; none is added. *)
Theorem cleanup_after_collisions (now : Z) (g : GameState.t) :
  let g' := cleanupProjectiles (handleCollisions KILL_SCORE RESPAWN_DELAY now g) in
  (forall p, p ∈ projectiles g' ->
     Projectile.isActive p = true /\ p ∈ projectiles g) /\
  (length (projectiles g') <= length (projectiles g))%nat.
Proof.
  intros g'.
  pose proof (handleCollisions_relates now g) as Hrel. cbv zeta in Hrel.
  destruct Hrel as [_ Hp].
  subst g'. cbn. split.
  - intros p Hin. apply list_elem_of_filter in Hin as [Hact Hin].
    split; [exact Hact |].
    apply list_elem_of_lookup in Hin as [j Hj].
    destruct (Forall2_lookup_r _ _ _ _ _ Hp Hj) as (p0 & Hj0 & Hspent).
    destruct Hspent as [-> | [_ ->]].
    + eapply list_elem_of_lookup_2. exact Hj0.
    + cbn in Hact. discriminate.
  - rewrite (Forall2_length _ _ _ Hp). apply length_filter.
Qed.

End CollisionProperties.

(** Player 1's own projectile sits on player 1's living ship, next to the
    living ship of player 0 (out of reach): player 1's ship is untouched. *)
Lemma handleCollisions_spares_own_and_dead_witness :
  let own := Vector2D.mk 600 300 in
  let ship0 := Ship.new 0 (Vector2D.mk 200 300) in
  let ship1 := Ship.new 1 own in
  let shot := Projectile.new 1 own (Vector2D.mk 1 0) "#ff4444" 0 in
  let g := GameState.mk [(0%Z, ship0); (1%Z, ship1)] [shot] true false 0 0
             [] 2 GameState.deathmatch 5 300000 0 0 true None [] in
  GameState.ships (GameState.handleCollisions 100 3000 10 g) !! 1 = Some (1%Z, ship1).
Proof.
  intros own ship0 ship1 shot g.
  apply (handleCollisions_spares_own_and_dead 100 3000 10 g 1 1%Z ship1 eq_refl).
  right. intros p Hin _.
  apply list_elem_of_singleton in Hin. subst p. reflexivity.
Defined.

(** ** JsMap: reading after writing *)

Section JsMapMoreProperties.
Context {V : Type}.
Open Scope Z_scope.

Lemma JsMap_get_set_eq (k : Z) (v : V) (m : JsMap.t V) :
  JsMap.get k (JsMap.set k v m) = Some v.
Proof.
  induction m as [| [k' v'] m IH]; cbn.
  - now rewrite Z.eqb_refl.
  - destruct (k' =? k) eqn:E; cbn.
    + now rewrite Z.eqb_refl.
    + rewrite E. exact IH.
Qed.

Lemma JsMap_get_set_ne (k k' : Z) (v : V) (m : JsMap.t V) :
  k <> k' -> JsMap.get k' (JsMap.set k v m) = JsMap.get k' m.
Proof.
  intros Hne. induction m as [| [k0 v0] m IH]; cbn.
  - destruct (Z.eqb_spec k k'); [contradiction | reflexivity].
  - destruct (Z.eqb_spec k0 k) as [-> | Hk]; cbn.
    + destruct (Z.eqb_spec k k'); [contradiction | reflexivity].
    + destruct (k0 =? k'); [reflexivity | exact IH].
Qed.

Lemma JsMap_get_None_keys (k : Z) (m : JsMap.t V) :
  JsMap.get k m = None <-> k ∉ map fst m.
Proof.
  induction m as [| [k' v'] m IH]; cbn.
  - split; [intros _; apply not_elem_of_nil | reflexivity].
  - rewrite not_elem_of_cons.
    destruct (Z.eqb_spec k' k) as [-> | Hne].
    + split; [discriminate | intros [H _]; contradiction].
    + rewrite IH. split; [intros H; split; [congruence | exact H] | intros [_ H]; exact H].
Qed.

Lemma JsMap_set_fresh (k : Z) (v : V) (m : JsMap.t V) :
  JsMap.get k m = None -> JsMap.set k v m = m ++ [(k, v)].
Proof.
  induction m as [| [k' v'] m IH]; cbn; [reflexivity |].
  destruct (k' =? k); [discriminate |].
  intros H. rewrite (IH H). reflexivity.
Qed.

Lemma JsMap_set_present (k : Z) (v : V) (m : JsMap.t V) :
  JsMap.get k m <> None -> JsMap.size (JsMap.set k v m) = JsMap.size m.
Proof.
  unfold JsMap.size.
  induction m as [| [k' v'] m IH]; cbn; [congruence |].
  destruct (k' =? k); cbn; [reflexivity |].
  intros H. rewrite (IH H). reflexivity.
Qed.

Lemma JsMap_get_delete_eq (k : Z) (m : JsMap.t V) :
  JsMap.uniqueKeys m -> JsMap.get k (JsMap.delete k m) = None.
Proof.
  unfold JsMap.uniqueKeys.
  induction m as [| [k' v'] m IH]; cbn; [reflexivity |].
  intros Hnd. apply NoDup_cons in Hnd as [Hnotin Hnd].
  destruct (Z.eqb_spec k' k) as [-> | Hne]; cbn.
  - apply JsMap_get_None_keys, Hnotin.
  - destruct (Z.eqb_spec k' k); [contradiction |]. apply IH, Hnd.
Qed.

Lemma JsMap_get_delete_ne (k k' : Z) (m : JsMap.t V) :
  k <> k' -> JsMap.get k' (JsMap.delete k m) = JsMap.get k' m.
Proof.
  intros Hne. induction m as [| [k0 v0] m IH]; cbn; [reflexivity |].
  destruct (Z.eqb_spec k0 k) as [-> | Hk]; cbn.
  - destruct (Z.eqb_spec k k'); [contradiction | reflexivity].
  - destruct (k0 =? k'); [reflexivity | exact IH].
Qed.

Lemma JsMap_get_in (k : Z) (v : V) (m : JsMap.t V) :
  JsMap.uniqueKeys m -> (k, v) ∈ m -> JsMap.get k m = Some v.
Proof.
  unfold JsMap.uniqueKeys.
  induction m as [| [k' v'] m IH]; cbn; intros Hnd Hin.
  - apply elem_of_nil in Hin. contradiction.
  - apply NoDup_cons in Hnd as [Hnotin Hnd].
    apply elem_of_cons in Hin as [[= <- <-] | Hin].
    + now rewrite Z.eqb_refl.
    + destruct (Z.eqb_spec k' k) as [-> | Hne]; [| apply IH; assumption].
      exfalso. apply Hnotin. apply list_elem_of_fmap. exists (k, v). auto.
Qed.

End JsMapMoreProperties.

(** ** GameState: players joining, leaving and (re)spawning *)

Section PlayerProperties.
Import GameState.
Open Scope Z_scope.

Lemma getSpawnPosition_slot (playerId : Z) :
  0 <= playerId -> getSpawnPosition playerId = Some (spawnSlot playerId).
Proof.
  intros Hnn. unfold getSpawnPosition, spawnSlot.
  change (Z.of_nat (length SPAWN_POSITIONS)) with 2.
  pose proof (Z.rem_bound_pos playerId 2 Hnn ltac:(lia)) as Hb.
  rewrite Z.rem_mod_nonneg in * by lia.
  rewrite Zeven_mod.
  destruct (Z.ltb_spec (playerId mod 2) 0); [lia |].
  assert (Hcases : playerId mod 2 = 0 \/ playerId mod 2 = 1) by lia.
  destruct Hcases as [-> | ->]; reflexivity.
Qed.

(** X9: [addPlayer] refuses (and changes nothing) exactly when the player
    map already holds [maxPlayers] entries, so the map never grows beyond
    that; when it accepts, the id reads back as a connected player with
    score, kills and deaths 0 and every other id reads as before. *)
Theorem addPlayer_capacity (playerId : Z) (playerName : string) (g : GameState.t) :
  let accepted := fst (addPlayer playerId playerName g) in
  let g' := snd (addPlayer playerId playerName g) in
  ((JsMap.size (players g) <= maxPlayers g)%nat ->
   (JsMap.size (players g') <= maxPlayers g')%nat) /\
  ((maxPlayers g <= JsMap.size (players g))%nat -> accepted = false /\ g' = g) /\
  ((JsMap.size (players g) < maxPlayers g)%nat ->
   accepted = true /\
   JsMap.get playerId (players g')
     = Some (mkPlayer playerId playerName 0 0 0 true) /\
   forall other, other <> playerId ->
     JsMap.get other (players g') = JsMap.get other (players g)).
Proof.
  cbv zeta. unfold addPlayer.
  destruct (Nat.leb_spec (maxPlayers g) (JsMap.size (players g))) as [Hfull | Hroom];
    cbn [fst snd].
  - split; [auto |]. split; [auto | lia].
  - split; [| split; [lia |]].
    + intros _. cbn [players set_players maxPlayers].
      destruct (JsMap.get playerId (players g)) eqn:E.
      * rewrite JsMap_set_present by congruence. lia.
      * rewrite JsMap_set_fresh by exact E. unfold JsMap.size in *.
        rewrite length_app. cbn. lia.
    + intros _. split; [reflexivity |]. cbn. split.
      * apply JsMap_get_set_eq.
      * intros other Hne. apply JsMap_get_set_ne. congruence.
Qed.

(** X10: once a player was removed, the respawn timer that is still
    pending for it changes nothing when it fires: neither a ship nor a
    player record reappears. *)
Theorem respawn_after_removal (playerId now : Z) (g : GameState.t) :
  JsMap.uniqueKeys (players g) -> JsMap.uniqueKeys (ships g) ->
  let g' := removePlayer playerId g in
  respawnPlayer playerId now g' = Some g' /\
  JsMap.get playerId (ships g') = None /\
  JsMap.get playerId (players g') = None /\
  respawnTimers g' = respawnTimers g.
Proof.
  intros Hp Hs g'.
  assert (Hship : JsMap.get playerId (ships g') = None)
    by (apply JsMap_get_delete_eq, Hs).
  assert (Hplayer : JsMap.get playerId (players g') = None)
    by (apply JsMap_get_delete_eq, Hp).
  unfold respawnPlayer, spawnPlayer. rewrite Hship, Hplayer. auto.
Qed.

(** X11: [reset] empties the ship map and stops the game but leaves the
    pending respawn timers in place; when such a timer fires afterwards
    for a connected player (id not negative), a fresh ship is put into the
    otherwise empty ship map of the stopped game. *)
Theorem respawn_after_reset (playerId now : Z) (g : GameState.t) (player : Player) :
  JsMap.get playerId (players g) = Some player ->
  isConnected player = true ->
  0 <= playerId ->
  respawnTimers (reset g) = respawnTimers g /\
  isRunning (reset g) = false /\ ships (reset g) = [] /\
  respawnPlayer playerId now (reset g)
    = Some (set_ships [(playerId, Ship.new playerId (spawnSlot playerId))] (reset g)).
Proof.
  intros Hp Hc Hnn. repeat split.
  unfold respawnPlayer, spawnPlayer. cbn [ships reset JsMap.get JsMap.empty players].
  assert (Hget : JsMap.get playerId (JsMap.forEach resetCounters (players g))
                 = Some (resetCounters player)).
  { clear - Hp. induction (players g) as [| [k v] m IH]; cbn in *; [discriminate |].
    destruct (k =? playerId); [congruence | auto]. }
  rewrite Hget. cbn [isConnected resetCounters]. rewrite Hc. cbn [negb].
  rewrite getSpawnPosition_slot by exact Hnn. reflexivity.
Qed.

End PlayerProperties.

(** Two players in a game for two; a third is refused, and re-adding
    player 1 is refused as well. *)
Lemma addPlayer_capacity_witness :
  let g0 := GameState.mk [] [] false false 0 0 [] 2 GameState.deathmatch 5 300000
              0 0 false None [] in
  let g1 := snd (GameState.addPlayer 0 "P1" g0) in
  let g2 := snd (GameState.addPlayer 1 "P2" g1) in
  JsMap.get 1 (GameState.players g2) = Some (GameState.mkPlayer 1 "P2" 0 0 0 true) /\
  GameState.addPlayer 2 "P3" g2 = (false, g2) /\
  GameState.addPlayer 1 "P2" g2 = (false, g2).
Proof.
  intros g0 g1 g2.
  destruct (addPlayer_capacity 1 "P2" g1) as (_ & _ & Hroom).
  destruct (addPlayer_capacity 2 "P3" g2) as (_ & Hfull3 & _).
  destruct (addPlayer_capacity 1 "P2" g2) as (_ & Hfull1 & _).
  split; [apply Hroom; cbn; lia |].
  split.
  - destruct (Hfull3 ltac:(cbn; lia)) as [Hf Hg].
    rewrite (surjective_pairing (GameState.addPlayer 2 "P3" g2)).
    cbv zeta in Hf, Hg. rewrite Hf, Hg. reflexivity.
  - destruct (Hfull1 ltac:(cbn; lia)) as [Hf Hg].
    rewrite (surjective_pairing (GameState.addPlayer 1 "P2" g2)).
    cbv zeta in Hf, Hg. rewrite Hf, Hg. reflexivity.
Defined.

(** Player 1 is killed, leaves, and the respawn timer fires. *)
Lemma respawn_after_removal_witness :
  let g := GameState.matchOf [(0, 1); (1, 0)]%Z 5 300000 in
  let g' := GameState.removePlayer 1 g in
  GameState.respawnPlayer 1 5000 g' = Some g' /\
  JsMap.get 1 (GameState.ships g') = None.
Proof.
  intros g g'.
  assert (Hp : JsMap.uniqueKeys (GameState.players g)).
  { unfold JsMap.uniqueKeys. cbn. apply NoDup_cons_2; [| apply NoDup_singleton].
    intros Hin. apply list_elem_of_singleton in Hin. discriminate. }
  assert (Hs : JsMap.uniqueKeys (GameState.ships g)).
  { unfold JsMap.uniqueKeys. cbn. apply NoDup_cons_2; [| apply NoDup_singleton].
    intros Hin. apply list_elem_of_singleton in Hin. discriminate. }
  destruct (respawn_after_removal 1 5000 g Hp Hs) as (H1 & H2 & _).
  split; [exact H1 | exact H2].
Defined.

(** Player 0 of a two-player match, after [reset]. *)
Lemma respawn_after_reset_witness :
  let g := GameState.matchOf [(0, 1); (1, 0)]%Z 5 300000 in
  GameState.isRunning (GameState.reset g) = false /\
  GameState.respawnPlayer 0 5000 (GameState.reset g)
    = Some (GameState.set_ships
              [(0%Z, Ship.new 0 (GameState.spawnSlot 0))] (GameState.reset g)).
Proof.
  intros g.
  destruct (respawn_after_reset 0 5000 g (GameState.mkPlayer 0 "player" 1 1 0 true)
              eq_refl eq_refl) as (_ & H1 & _ & H2); [lia |].
  split; [exact H1 | exact H2].
Defined.

(** ** GameState: starting a match *)

Section StartMatchProperties.
Import GameState.
Open Scope Z_scope.

Lemma freshShips_forEach (ps : JsMap.t Player) :
  freshShips (JsMap.forEach resetCounters ps) = freshShips ps.
Proof.
  unfold freshShips, JsMap.forEach.
  induction ps as [| [k v] ps IH]; [reflexivity |].
  cbn [map]. rewrite !filter_cons. cbn [snd fst resetCounters isConnected].
  destruct (decide (isConnected v = true)); cbn [map fst]; rewrite IH; reflexivity.
Qed.

Lemma freshShips_keys (ps : JsMap.t Player) (k : Z) :
  k ∈ map fst (freshShips ps) -> k ∈ map fst ps.
Proof.
  unfold freshShips. rewrite <- list_fmap_compose.
  intros Hin. apply list_elem_of_fmap in Hin as (e & -> & He).
  apply list_elem_of_filter in He as [_ He].
  apply list_elem_of_fmap. exists e. auto.
Qed.

(** The loop of [startMatch] over the players still to visit, started
    with the ships of those already visited. *)
Lemma startMatch_loop (g : GameState.t) (visited todo : JsMap.t Player) :
  players g = visited ++ todo ->
  JsMap.uniqueKeys (players g) ->
  Forall (fun e => id (snd e) = fst e) (players g) ->
  Forall (fun e => 0 <= fst e) (players g) ->
  fold_left
    (fun acc player =>
       match acc with
       | Some g' =>
           if isConnected player then spawnPlayer (id player) g' else Some g'
       | None => None
       end)
    (JsMap.values todo) (Some (set_ships (freshShips visited) g))
  = Some (set_ships (freshShips (visited ++ todo)) g).
Proof.
  intros Hsplit Huniq Hids Hpos.
  revert visited Hsplit. induction todo as [| [k p] todo IH]; intros visited Hsplit.
  - cbn. rewrite app_nil_r. reflexivity.
  - assert (Hin : (k, p) ∈ players g).
    { rewrite Hsplit. apply elem_of_app. right. apply elem_of_cons. left. reflexivity. }
    assert (Hid : id p = k).
    { rewrite Forall_forall in Hids. exact (Hids _ Hin). }
    assert (Hk : 0 <= k).
    { rewrite Forall_forall in Hpos. exact (Hpos _ Hin). }
    assert (Hstep :
      (if isConnected p then spawnPlayer (id p) (set_ships (freshShips visited) g)
       else Some (set_ships (freshShips visited) g))
      = Some (set_ships (freshShips (visited ++ [(k, p)])) g)).
    { assert (Heq : freshShips (visited ++ [(k, p)])
                    = freshShips visited
                      ++ (if isConnected p
                          then [(k, Ship.new k (spawnSlot k))] else [])).
      { unfold freshShips. rewrite filter_app, filter_cons, filter_nil, map_app.
        cbn [snd]. destruct (isConnected p);
          [destruct (decide (true = true)); [reflexivity | congruence]
          | destruct (decide (false = true)); [congruence | reflexivity]]. }
      rewrite Heq. destruct (isConnected p) eqn:Ec.
      - unfold spawnPlayer. cbn [players set_ships].
        rewrite Hid, (JsMap_get_in k p (players g) Huniq Hin), Ec. cbn [negb].
        rewrite getSpawnPosition_slot by exact Hk.
        cbn [ships set_ships].
        rewrite JsMap_set_fresh; [reflexivity |].
        apply JsMap_get_None_keys. intros Hkin.
        apply freshShips_keys in Hkin.
        unfold JsMap.uniqueKeys in Huniq. rewrite Hsplit, map_app in Huniq.
        apply NoDup_app in Huniq as (_ & Hdisj & _).
        apply (Hdisj k Hkin). cbn. apply elem_of_cons. left. reflexivity.
      - rewrite app_nil_r. reflexivity. }
    cbn [JsMap.values map fold_left snd]. rewrite Hstep.
    specialize (IH (visited ++ [(k, p)])).
    rewrite <- app_assoc in IH. cbn [app] in IH.
    apply IH. exact Hsplit.
Qed.

(** X12: when every player is stored once, under its own, non-negative
    id, [startMatch] succeeds: the match is active and running from [now]
    with no winner and no projectiles, every score, kill and death
    counter is 0, and the ship map holds exactly one fresh ship per
    connected player, in joining order, each at the spawn slot of its
    id. *)
Theorem startMatch_fresh_ships (now : Z) (g : GameState.t) :
  playersConsistent g ->
  Forall (fun e => 0 <= fst e) (players g) ->
  exists g',
    startMatch now g = Some g' /\
    isMatchActive g' = true /\ isRunning g' = true /\ winner g' = None /\
    matchStartTime g' = now /\ projectiles g' = [] /\
    players g' = JsMap.forEach resetCounters (players g) /\
    ships g' = freshShips (players g).
Proof.
  intros [Huniq Hids] Hpos.
  set (g2 := mk JsMap.empty [] true false (gameStartTime g) (lastUpdateTime g)
               (JsMap.forEach resetCounters (players g)) (maxPlayers g)
               (gameMode g) (scoreLimit g) (timeLimit g) now (matchEndTime g)
               true None (respawnTimers g)).
  exists (set_ships (freshShips (players g2)) g2).
  split.
  - transitivity
      (fold_left
         (fun acc player =>
            match acc with
            | Some g' =>
                if isConnected player then spawnPlayer (id player) g' else Some g'
            | None => None
            end)
         (JsMap.values (players g2)) (Some (set_ships (freshShips []) g2)));
      [reflexivity |].
    apply (startMatch_loop g2 [] (players g2) eq_refl).
    + unfold JsMap.uniqueKeys, JsMap.forEach in *. cbn [players g2].
      rewrite <- list_fmap_compose.
      erewrite list_fmap_ext; [exact Huniq |]. intros ? [k v] ?. reflexivity.
    + cbn [players g2]. unfold JsMap.forEach. apply Forall_fmap.
      eapply Forall_impl; [exact Hids |]. intros [k v] H. exact H.
    + cbn [players g2]. unfold JsMap.forEach. apply Forall_fmap.
      eapply Forall_impl; [exact Hpos |]. intros [k v] H. exact H.
  - cbn [isMatchActive isRunning winner matchStartTime projectiles players ships
         set_ships g2].
    repeat split. apply freshShips_forEach.
Qed.

End StartMatchProperties.

(** The two players of a match, player 1 away: one fresh ship, for
    player 0. *)
Lemma startMatch_fresh_ships_witness :
  let g := GameState.mk [] [] false false 0 0
             [(0%Z, GameState.mkPlayer 0 "P1" 3 3 1 true);
              (1%Z, GameState.mkPlayer 1 "P2" 1 1 3 false)]
             2 GameState.deathmatch 5 300000 0 0 false (Some 1%Z) [] in
  exists g',
    GameState.startMatch 1000 g = Some g' /\
    GameState.winner g' = None /\
    GameState.ships g' = [(0%Z, Ship.new 0 (Vector2D.mk 200 300))].
Proof.
  intros g.
  assert (Hc : GameState.playersConsistent g).
  { split.
    - unfold JsMap.uniqueKeys. cbn. apply NoDup_cons_2; [| apply NoDup_singleton].
      intros Hin. apply list_elem_of_singleton in Hin. discriminate.
    - repeat constructor. }
  assert (Hpos : Forall (fun e => (0 <= fst e)%Z) (GameState.players g)).
  { repeat constructor; cbn; lia. }
  destruct (startMatch_fresh_ships 1000 g Hc Hpos)
    as (g' & Hstart & _ & _ & Hw & _ & _ & _ & Hships).
  exists g'. split; [exact Hstart |]. split; [exact Hw |]. exact Hships.
Defined.

(** ** GameState: who is recorded as the winner *)

Section WinnerProperties.
Import GameState.
Open Scope Z_scope.

(** The scan of the time-limit branch, started with a score [hs] and a
    candidate [w]: either nobody scored above [hs] and the pair is
    returned as it was, or the candidate is the first player whose score
    is the highest. *)
Lemma highestScoreStep_scan (l : list Player) (hs : Z) (w : option Z) :
  (Forall (fun q => score q <= hs) l /\
   fold_left highestScoreStep l (hs, w) = (hs, w)) \/
  (exists before p after,
     l = before ++ p :: after /\ hs < score p /\
     fold_left highestScoreStep l (hs, w) = (score p, Some (id p)) /\
     Forall (fun q => score q < score p) before /\
     Forall (fun q => score q <= score p) after).
Proof.
  revert hs w. induction l as [| q l IH]; intros hs w.
  - left. split; [constructor | reflexivity].
  - cbn [fold_left].
    replace (highestScoreStep (hs, w) q)
      with (if hs <? score q then (score q, Some (id q)) else (hs, w))
      by reflexivity.
    destruct (Z.ltb_spec hs (score q)) as [Hlt | Hge].
    + right. destruct (IH (score q) (Some (id q)))
        as [[Hall Hfold] | (before & p & after & Hl & Hp & Hfold & Hb & Ha)].
      * exists [], q, l. repeat split; try assumption. constructor.
      * exists (q :: before), p, after. subst l.
        repeat split; try assumption; [lia |].
        constructor; [lia | exact Hb].
    + destruct (IH hs w)
        as [[Hall Hfold] | (before & p & after & Hl & Hp & Hfold & Hb & Ha)].
      * left. split; [constructor; [lia | exact Hall] | exact Hfold].
      * right. exists (q :: before), p, after. subst l.
        repeat split; try assumption.
        constructor; [lia | exact Hb].
Qed.

(** X13: in an active match, when the first player (in joining order)
    whose score has reached the limit has an id other than 0, the match
    is closed at [now] with that id as winner, every ship's input is
    cleared, and no later call of [checkWinConditions] changes the state
    again. *)
Theorem checkWinConditions_records_winner (currentTime now : Z)
    (g : GameState.t) (player : Player) :
  isMatchActive g = true ->
  find (fun p => scoreLimit g <=? score p) (JsMap.values (players g)) = Some player ->
  id player <> 0 ->
  let g' := checkWinConditions currentTime now g in
  winner g' = Some (id player) /\ isMatchActive g' = false /\
  matchEndTime g' = now /\
  Forall (fun e => Ship.input (snd e) = Ship.noInput) (ships g') /\
  players g' = players g /\
  forall currentTime' now', checkWinConditions currentTime' now' g' = g'.
Proof.
  intros Hact Hfind Hid g'.
  assert (Hg : g' = endMatch (Some (id player)) now g).
  { unfold g', checkWinConditions. rewrite Hact, Hfind. reflexivity. }
  rewrite Hg. cbn [winner isMatchActive matchEndTime ships players endMatch].
  split.
  - unfold jsOrNull. destruct (Z.eqb_spec (id player) 0); [contradiction | reflexivity].
  - repeat split.
    + unfold JsMap.forEach. apply Forall_fmap, Forall_forall. intros e _. reflexivity.
Qed.

(** X14: in an active match in which nobody has reached the score limit
    and the time limit (above 0) has run out, with at least one player
    and no negative score, the player recorded as winner is the first one
    in joining order whose score is the highest, provided its id is not
    0. *)
Theorem checkWinConditions_time_limit_leader (currentTime now : Z)
    (g : GameState.t) :
  isMatchActive g = true ->
  find (fun p => scoreLimit g <=? score p) (JsMap.values (players g)) = None ->
  0 < timeLimit g <= currentTime - matchStartTime g ->
  players g <> [] ->
  Forall (fun p => 0 <= score p) (JsMap.values (players g)) ->
  exists before leader after,
    JsMap.values (players g) = before ++ leader :: after /\
    Forall (fun q => score q < score leader) before /\
    Forall (fun q => score q <= score leader) after /\
    isMatchActive (checkWinConditions currentTime now g) = false /\
    (id leader <> 0 ->
     winner (checkWinConditions currentTime now g) = Some (id leader)).
Proof.
  intros Hact Hfind [Hpos Hdue] Hne Hscores.
  destruct (highestScoreStep_scan (JsMap.values (players g)) (-1) None)
    as [[Hall _] | (before & p & after & Hl & _ & Hfold & Hb & Ha)].
  - exfalso. destruct (players g) as [| [k q] m]; [congruence |].
    cbn in Hall, Hscores. apply Forall_cons in Hall as [H1 _].
    apply Forall_cons in Hscores as [H2 _]. cbn in *. lia.
  - exists before, p, after.
    split; [exact Hl |]. split; [exact Hb |]. split; [exact Ha |].
    assert (Hg : checkWinConditions currentTime now g
                 = endMatch (jsOrNull (Some (id p))) now g).
    { unfold checkWinConditions. rewrite Hact, Hfind. cbn [negb].
      apply Z.ltb_lt in Hpos. rewrite Hpos.
      apply Z.leb_le in Hdue. rewrite Hdue.
      unfold highestScorer. rewrite Hfold. reflexivity. }
    rewrite Hg. split; [reflexivity |].
    intros Hid. cbn [winner endMatch]. unfold jsOrNull.
    destruct (Z.eqb_spec (id p) 0); [contradiction |]. cbn.
    destruct (Z.eqb_spec (id p) 0); [contradiction | reflexivity].
Qed.

End WinnerProperties.

(** 5 points reach the limit 5 for player 1. *)
Lemma checkWinConditions_records_winner_witness :
  let g := GameState.matchOf [(0, 2); (1, 5)]%Z 5 300000 in
  GameState.winner (GameState.checkWinConditions 1000 1000 g) = Some 1%Z /\
  GameState.isMatchActive (GameState.checkWinConditions 1000 1000 g) = false.
Proof.
  intros g.
  destruct (checkWinConditions_records_winner 1000 1000 g
              (GameState.mkPlayer 1 "player" 5 5 0 true) eq_refl eq_refl)
    as (Hw & Ha & _); [discriminate |].
  split; [exact Hw | exact Ha].
Defined.

(** Time is up with player 1 leading 5 to 2 under a limit of 10. *)
Lemma checkWinConditions_time_limit_leader_witness :
  let g := GameState.matchOf [(0, 2); (1, 5)]%Z 10 300000 in
  exists before leader after,
    JsMap.values (GameState.players g) = before ++ leader :: after /\
    Forall (fun q => (GameState.score q < GameState.score leader)%Z) before /\
    Forall (fun q => (GameState.score q <= GameState.score leader)%Z) after /\
    GameState.isMatchActive (GameState.checkWinConditions 300000 300000 g) = false /\
    (GameState.id leader <> 0%Z ->
     GameState.winner (GameState.checkWinConditions 300000 300000 g)
       = Some (GameState.id leader)).
Proof.
  intros g.
  apply (checkWinConditions_time_limit_leader 300000 300000 g).
  - reflexivity.
  - reflexivity.
  - cbn. lia.
  - discriminate.
  - repeat constructor; cbn; lia.
Defined.

(** ** PeerConnection: back-off, lost queues, teardown, delivery *)

Section LinkProperties.
Import NetworkTypes PeerConnection.

Lemma attemptReconnection_below_cap (peerId : string) (now : Z)
    (s : PeerConnection.t) (attempts : nat) :
  reconnectAttempts s !! peerId = Some attempts ->
  attempts < maxReconnectAttempts (config s) ->
  attemptReconnection peerId now s =
    set_reconnectTimers
      (reconnectTimers s
         ++ [(peerId, (reconnectDelay (config s) * Z.of_nat (attempts + 1))%Z)])
      (set_reconnectCount (reconnectCount s + 1)
         (set_reconnectAttempts
            (<[peerId := attempts + 1]> (reconnectAttempts s)) s)).
Proof.
  intros Ha Hlt. unfold attemptReconnection. rewrite Ha.
  change (default 0 (Some attempts)) with attempts.
  apply Nat.ltb_lt in Hlt. rewrite Hlt. reflexivity.
Qed.

(** X15: as long as nothing sets a channel up in between, consecutive
    calls of [attemptReconnection] for a peer count up and schedule one
    timer each, the i-th with delay [reconnectDelay] x i, without
    reporting an error; the call made when the counter has reached
    [maxReconnectAttempts] schedules nothing, leaves the counter alone and
    reports one CONNECTION_FAILED error. *)
Theorem attemptReconnection_backoff (peerId : string) (now : Z)
    (s : PeerConnection.t) (attempts n : nat) :
  reconnectAttempts s !! peerId = Some attempts ->
  attempts + n <= maxReconnectAttempts (config s) ->
  let s' := Nat.iter n (attemptReconnection peerId now) s in
  reconnectAttempts s' !! peerId = Some (attempts + n) /\
  reconnectTimers s' =
    reconnectTimers s
    ++ map (fun i =>
              (peerId, (reconnectDelay (config s) * Z.of_nat (attempts + i + 1))%Z))
         (seq 0 n) /\
  errors s' = errors s /\ config s' = config s /\
  (attempts + n = maxReconnectAttempts (config s) ->
   errors (attemptReconnection peerId now s')
     = errors s
       ++ [mkError CONNECTION_FAILED ("Failed to reconnect to peer " +:+ peerId) now] /\
   reconnectTimers (attemptReconnection peerId now s') = reconnectTimers s' /\
   reconnectAttempts (attemptReconnection peerId now s') = reconnectAttempts s').
Proof.
  intros Ha Hle.
  assert (Hrun : forall n, attempts + n <= maxReconnectAttempts (config s) ->
             let s' := Nat.iter n (attemptReconnection peerId now) s in
             reconnectAttempts s' !! peerId = Some (attempts + n) /\
             reconnectTimers s' =
               reconnectTimers s
               ++ map (fun i =>
                         (peerId,
                          (reconnectDelay (config s) * Z.of_nat (attempts + i + 1))%Z))
                    (seq 0 n) /\
             errors s' = errors s /\ config s' = config s).
  { clear n Hle. induction n as [| n IH]; intros Hle; cbv zeta.
    - cbn. rewrite Nat.add_0_r, app_nil_r. auto.
    - destruct (IH ltac:(lia)) as (Ha' & Ht' & He' & Hc').
      cbn [Nat.iter nat_rect].
      change (nat_rect _ s _ n) with (Nat.iter n (attemptReconnection peerId now) s).
      set (s1 := Nat.iter n (attemptReconnection peerId now) s) in *.
      rewrite (attemptReconnection_below_cap peerId now s1 (attempts + n) Ha')
        by (rewrite Hc'; lia).
      cbn [reconnectAttempts reconnectTimers errors config set_reconnectTimers
           set_reconnectCount set_reconnectAttempts].
      rewrite lookup_insert_eq, Ht', He', Hc', seq_S, map_app, <- app_assoc.
      cbn [map app]. repeat split; try reflexivity.
      f_equal. lia. }
  intros s'. destruct (Hrun n Hle) as (Ha' & Ht' & He' & Hc'). fold s' in Ha', Ht', He', Hc'.
  split; [exact Ha' |]. split; [exact Ht' |]. split; [exact He' |].
  split; [exact Hc' |].
  intros Hcap. unfold attemptReconnection. rewrite Ha'.
  change (default 0 (Some (attempts + n))) with (attempts + n).
  assert (Hge : (attempts + n <? maxReconnectAttempts (config s'))%nat = false).
  { apply Nat.ltb_ge. rewrite Hc'. lia. }
  rewrite Hge. cbn. rewrite He'. auto.
Qed.

End LinkProperties.

(** A fresh link in the default configuration: five calls, then the
    sixth. *)
Lemma attemptReconnection_backoff_witness :
  let s := PeerConnection.setupConnection (PeerConnection.mkConn "host" true []) 0
             (PeerConnection.new NetworkTypes.DEFAULT_NETWORK_CONFIG) in
  let s' := Nat.iter 5 (PeerConnection.attemptReconnection "host" 7) s in
  PeerConnection.reconnectTimers s' =
    [("host", 2000); ("host", 4000); ("host", 6000); ("host", 8000);
     ("host", 10000)]%Z /\
  PeerConnection.errors s' = [] /\
  PeerConnection.reconnectTimers (PeerConnection.attemptReconnection "host" 7 s')
    = PeerConnection.reconnectTimers s'.
Proof.
  intros s s'.
  assert (Ha : PeerConnection.reconnectAttempts s !! "host" = Some 0).
  { apply lookup_insert_eq. }
  destruct (attemptReconnection_backoff "host" 7 s 0 5 Ha) as (_ & Ht & He & _ & Hcap).
  { cbn. lia. }
  split; [exact Ht |]. split; [exact He |].
  apply Hcap. reflexivity.
Defined.

Section QueueLossProperties.
Import NetworkTypes PeerConnection.

Lemma attemptReconnection_keeps_queues (peerId : string) (now : Z)
    (s : PeerConnection.t) :
  messageQueue (attemptReconnection peerId now s) = messageQueue s /\
  connections (attemptReconnection peerId now s) = connections s.
Proof.
  unfold attemptReconnection.
  destruct (default 0 (reconnectAttempts s !! peerId)
            <? maxReconnectAttempts (config s)); split; reflexivity.
Qed.

(** X16: a message waiting in a peer's queue is never delivered. When the
    peer's channel closes, the queue is deleted together with the
    connection; when a channel to the peer is set up, the queue is
    replaced before anything is sent, so that afterwards the channel has
    been handed, and the queue holds, nothing but the host's
    CONNECTION_ESTABLISHED message (sent if the channel is open, queued
    if it is not and the queue limit is above 0). *)
Theorem queued_messages_are_dropped (conn : DataConnection) (peerId : string)
    (now : Z) (s : PeerConnection.t) :
  let closed := handleConnectionClosed peerId now s in
  let s' := setupConnection conn now s in
  let hello := connectionEstablished conn now s in
  messageQueue closed !! peerId = None /\
  connections closed !! peerId = None /\
  connections s' !! peer conn
    = Some (if isHost s && open conn then send hello conn else conn) /\
  messageQueue s' !! peer conn
    = Some (if isHost s && negb (open conn)
               && (0 <? maxMessageQueueSize (config s))
            then [hello] else []).
Proof.
  cbv zeta. repeat split.
  - unfold handleConnectionClosed.
    destruct (connectionStatus (cleanupPeerConnection peerId s));
      try (cbn; apply lookup_delete_eq).
    destruct (attemptReconnection_keeps_queues peerId now
                (cleanupPeerConnection peerId s)) as [-> _].
    cbn. apply lookup_delete_eq.
  - unfold handleConnectionClosed.
    destruct (connectionStatus (cleanupPeerConnection peerId s));
      try (cbn; apply lookup_delete_eq).
    destruct (attemptReconnection_keeps_queues peerId now
                (cleanupPeerConnection peerId s)) as [_ ->].
    cbn. apply lookup_delete_eq.
  - unfold setupConnection, sendToSpecificPeer, enqueue, connectionEstablished.
    cbn. destruct (isHost s); cbn; [| apply lookup_insert_eq].
    rewrite lookup_insert_eq. destruct (open conn); cbn.
    + apply lookup_insert_eq.
    + rewrite lookup_insert_eq. cbn.
      destruct (maxMessageQueueSize (config s)); cbn; apply lookup_insert_eq.
  - unfold setupConnection, sendToSpecificPeer, enqueue, connectionEstablished.
    cbn. destruct (isHost s); cbn; [| apply lookup_insert_eq].
    rewrite lookup_insert_eq. destruct (open conn); cbn.
    + apply lookup_insert_eq.
    + rewrite lookup_insert_eq. cbn.
      destruct (maxMessageQueueSize (config s)); cbn; apply lookup_insert_eq.
Qed.

(** Teardown is final for the link layer. *)
Definition tornDown (s : PeerConnection.t) : Prop :=
  peerAlive s = false /\ connections s = ∅ /\ messageQueue s = ∅ /\
  connectionStatus s = DISCONNECTED.

Lemma step_tornDown (peerId : string) (now : Z) (s : PeerConnection.t)
    (e : LinkEvent) :
  tornDown s ->
  tornDown (step peerId now s e) /\
  errors (step peerId now s e) = errors s /\
  reconnectCount (step peerId now s e) = reconnectCount s /\
  length (reconnectTimers (step peerId now s e)) <= length (reconnectTimers s).
Proof.
  intros (Halive & Hconn & Hqueue & Hstatus).
  destruct e; cbn [step].
  - unfold handleConnectionClosed.
    assert (Hst : connectionStatus (cleanupPeerConnection peerId s) = DISCONNECTED)
      by exact Hstatus.
    rewrite Hst. unfold tornDown. cbn. rewrite Hconn, Hqueue, !delete_empty.
    repeat split; auto.
  - unfold reconnectTimerFired. cbn [peerAlive set_reconnectTimers].
    rewrite Halive. unfold tornDown. cbn.
    repeat split; auto.
    clear. induction (reconnectTimers s) as [| [p d] l IH]; cbn; [lia |].
    destruct (String.eqb p peerId); cbn; lia.
Qed.

(** X17: after [disconnect()], whatever close events and reconnection
    timers of whatever peers still arrive, no connection is set up, no
    reconnection is scheduled or counted, nothing is queued and no error
    is reported; the status stays DISCONNECTED and pending timers only
    run out. *)
Theorem disconnect_is_final (now : Z) (events : list (string * LinkEvent))
    (s : PeerConnection.t) :
  let s' := runLinks now events (disconnect s) in
  connections s' = ∅ /\ messageQueue s' = ∅ /\
  connectionStatus s' = DISCONNECTED /\
  errors s' = errors s /\ reconnectCount s' = reconnectCount s /\
  length (reconnectTimers s') <= length (reconnectTimers s).
Proof.
  assert (Hgen : forall evs s1, tornDown s1 ->
             tornDown (runLinks now evs s1) /\
             errors (runLinks now evs s1) = errors s1 /\
             reconnectCount (runLinks now evs s1) = reconnectCount s1 /\
             length (reconnectTimers (runLinks now evs s1))
               <= length (reconnectTimers s1)).
  { induction evs as [| [p e] evs IH]; intros s1 H1; [cbn; auto |].
    destruct (step_tornDown p now s1 e H1) as (H2 & He & Hc & Hl).
    destruct (IH _ H2) as (H3 & He' & Hc' & Hl').
    change (runLinks now ((p, e) :: evs) s1)
      with (runLinks now evs (step p now s1 e)).
    rewrite He', Hc', He, Hc.
    split; [exact H3 |]. split; [reflexivity |]. split; [reflexivity | lia]. }
  destruct (Hgen events (disconnect s)) as ((_ & Hc & Hq & Hs) & He & Hn & Hl).
  { repeat split. }
  cbv zeta.
  split; [exact Hc |]. split; [exact Hq |]. split; [exact Hs |].
  split; [exact He |]. split; [exact Hn | exact Hl].
Qed.

(** X18: [broadcastMessage] hands the message to every channel that is
    open and to no other; it never queues, so a peer whose channel is not
    open misses the message. *)
Theorem broadcastMessage_open_only (message : NetworkMessage) (peerId : string)
    (s : PeerConnection.t) :
  messageQueue (broadcastMessage message s) = messageQueue s /\
  connections (broadcastMessage message s) !! peerId
    = match connections s !! peerId with
      | Some conn =>
          Some (if open conn then mkConn (peer conn) true (sent conn ++ [message])
                else conn)
      | None => None
      end /\
  channelOpen peerId (broadcastMessage message s) = channelOpen peerId s.
Proof.
  split; [reflexivity |].
  assert (Hl : connections (broadcastMessage message s) !! peerId
               = (fun conn => if open conn then send message conn else conn)
                   <$> connections s !! peerId)
    by (cbn; apply lookup_fmap).
  split.
  - rewrite Hl. destruct (connections s !! peerId) as [conn |]; [| reflexivity].
    cbn. unfold send. destruct (open conn) eqn:E; reflexivity.
  - unfold channelOpen. rewrite Hl.
    destruct (connections s !! peerId) as [conn |]; [| reflexivity].
    cbn. destruct (open conn) eqn:E; [cbn; exact E | exact E].
Qed.

(** X19: while the channel to a peer is open, any number of messages
    sent to it are handed to the channel in the order given, and the
    peer's queue is left alone. *)
Theorem sendAll_open_delivers (messages : list NetworkMessage) (peerId : string)
    (s : PeerConnection.t) (conn : DataConnection) :
  connections s !! peerId = Some conn -> open conn = true ->
  connections (sendAll messages peerId s) !! peerId
    = Some (mkConn (peer conn) true (sent conn ++ messages)) /\
  messageQueue (sendAll messages peerId s) = messageQueue s.
Proof.
  revert s conn. induction messages as [| m ms IH]; intros s conn Hc Ho.
  - cbn. rewrite app_nil_r, Hc. destruct conn; cbn in *. subst. auto.
  - unfold sendAll. cbn [fold_left].
    fold (sendAll ms peerId (sendToSpecificPeer m peerId s)).
    assert (Hstep : sendToSpecificPeer m peerId s
                    = set_connections (<[peerId := send m conn]> (connections s)) s).
    { unfold sendToSpecificPeer. rewrite Hc, Ho. reflexivity. }
    rewrite Hstep.
    destruct (IH (set_connections (<[peerId := send m conn]> (connections s)) s)
                (send m conn)) as [H1 H2].
    { cbn. apply lookup_insert_eq. }
    { exact Ho. }
    rewrite H1, H2. cbn. rewrite <- app_assoc. auto.
Qed.

End QueueLossProperties.

(** The host's open channel, three pings. *)
Lemma sendAll_open_delivers_witness :
  let conn := PeerConnection.mkConn "host" true [] in
  let s := PeerConnection.setupConnection conn 0
             (PeerConnection.new NetworkTypes.DEFAULT_NETWORK_CONFIG) in
  let ping := fun n : nat =>
    NetworkTypes.createBaseMessage NetworkTypes.PING "client" (Z.of_nat n) in
  PeerConnection.connections (PeerConnection.sendAll (map ping [1; 2; 3]) "host" s)
    !! "host"
  = Some (PeerConnection.mkConn "host" true (map ping [1; 2; 3])).
Proof.
  intros conn s ping.
  assert (Hc : PeerConnection.connections s !! "host" = Some conn).
  { apply lookup_insert_eq. }
  destruct (sendAll_open_delivers (map ping [1; 2; 3]) "host" s conn Hc eq_refl)
    as [H _].
  exact H.
Defined.

(** ** Angles: whole turns, end points *)

Section AngleTurnProperties.
Import MathUtils GameSync.
Open Scope R_scope.

Lemma whileAbovePi_turns (fuel : nat) (angle r : R) :
  whileAbovePi fuel angle = Some r -> exists k : nat, r = angle - 2 * PI * INR k.
Proof.
  revert angle. induction fuel as [| fuel IH]; intros angle; cbn; [discriminate |].
  destruct (Rgt_dec angle PI).
  - intros H. destruct (IH _ H) as [k Hk]. exists (S k). rewrite S_INR. lra.
  - intros [= <-]. exists 0%nat. cbn. lra.
Qed.

Lemma whileBelowMinusPi_turns (fuel : nat) (angle r : R) :
  whileBelowMinusPi fuel angle = Some r -> exists k : nat, r = angle + 2 * PI * INR k.
Proof.
  revert angle. induction fuel as [| fuel IH]; intros angle; cbn; [discriminate |].
  destruct (Rlt_dec angle (- PI)).
  - intros H. destruct (IH _ H) as [k Hk]. exists (S k). rewrite S_INR. lra.
  - intros [= <-]. exists 0%nat. cbn. lra.
Qed.

(** X20: what [normalizeAngle] returns differs from its argument by a
    whole number of full turns, and an angle that already lies between
    -pi and pi is returned as it is, so normalising twice is the same as
    normalising once. *)
Theorem normalizeAngle_whole_turns (angle : R) :
  exists (fuel : nat) (r : R) (k : Z),
    r = angle + 2 * PI * IZR k /\ - PI <= r <= PI /\
    (- PI <= angle <= PI -> r = angle) /\
    (forall fuel', (fuel <= fuel')%nat -> normalizeAngle fuel' angle = Some r) /\
    (forall fuel', (1 <= fuel')%nat -> normalizeAngle fuel' r = Some r).
Proof.
  assert (Hfix : forall a fuel', - PI <= a <= PI -> (1 <= fuel')%nat ->
                   normalizeAngle fuel' a = Some a).
  { intros a [| fuel'] Ha Hf; [lia |]. unfold normalizeAngle. cbn.
    destruct (Rgt_dec a PI); [lra |]. cbn.
    destruct (Rlt_dec a (- PI)); [lra | reflexivity]. }
  destruct (normalizeAngle_total angle) as (fuel & r & Hr & Hrun).
  pose proof (Hrun (S fuel) ltac:(lia)) as Hone.
  unfold normalizeAngle in Hone.
  destruct (whileAbovePi (S fuel) angle) as [r1 |] eqn:E1; [| discriminate].
  destruct (whileAbovePi_turns _ _ _ E1) as [k1 Hk1].
  destruct (whileBelowMinusPi_turns _ _ _ Hone) as [k2 Hk2].
  exists (S fuel), r, (Z.of_nat k2 - Z.of_nat k1)%Z.
  split; [rewrite minus_IZR, <- !INR_IZR_INZ; lra |].
  split; [exact Hr |]. split; [| split].
  - intros Hin. pose proof (Hfix angle (S fuel) Hin ltac:(lia)) as H.
    rewrite (Hrun (S fuel)) in H by lia. congruence.
  - intros fuel' Hf. apply Hrun. lia.
  - intros fuel' Hf. apply Hfix; assumption.
Qed.

(** X21: for two angles at most three half-turns apart, [interpolateAngle]
    returns [from] at factor 0 and [to], possibly one full turn away, at
    factor 1; for a factor between 0 and 1 the result is at most pi times
    the factor away from [from]. *)
Theorem interpolateAngle_end_points (from to alpha : R) :
  Rabs (to - from) <= 3 * PI -> 0 <= alpha <= 1 ->
  interpolateAngle from to 0 = from /\
  (interpolateAngle from to 1 = to \/
   interpolateAngle from to 1 = to - 2 * PI \/
   interpolateAngle from to 1 = to + 2 * PI) /\
  Rabs (interpolateAngle from to alpha - from) <= PI * alpha.
Proof.
  intros Habs Halpha. pose proof PI_RGT_0 as Hpi.
  assert (Hrange : - (3 * PI) <= to - from <= 3 * PI).
  { pose proof (Rle_abs (to - from)). pose proof (Rle_abs (- (to - from))).
    rewrite Rabs_Ropp in *. lra. }
  assert (Hd : - PI <= interpolateDiff from to <= PI /\
               (interpolateDiff from to = to - from \/
                interpolateDiff from to = to - from - 2 * PI \/
                interpolateDiff from to = to - from + 2 * PI)).
  { unfold interpolateDiff.
    destruct (Rgt_dec (to - from) PI);
      match goal with |- context [Rlt_dec ?d _] => destruct (Rlt_dec d (- PI)) end;
      split; lra. }
  destruct Hd as [Hin Hcases]. unfold interpolateAngle.
  split; [lra |]. split.
  - destruct Hcases as [-> | [-> | ->]]; [left | right; left | right; right]; lra.
  - replace (from + interpolateDiff from to * alpha - from)
      with (interpolateDiff from to * alpha) by lra.
    apply Rabs_le. split; nra.
Qed.

End AngleTurnProperties.

(** From 3 to -3, at the factors 0 and one half. *)
Lemma interpolateAngle_end_points_witness :
  GameSync.interpolateAngle 3 (-3) 0 = 3%R /\
  (Rabs (GameSync.interpolateAngle 3 (-3) (1 / 2) - 3) <= PI * (1 / 2))%R.
Proof.
  assert (Hclose : (Rabs (-3 - 3) <= 3 * PI)%R).
  { pose proof PI2_3_2. rewrite Rabs_left by lra. lra. }
  assert (Halpha : (0 <= 1 / 2 <= 1)%R) by lra.
  destruct (interpolateAngle_end_points 3 (-3) (1 / 2) Hclose Halpha) as (H0 & _ & Hb).
  split; [exact H0 | exact Hb].
Defined.

(** ** GameState: a respawn timer that finds its ship *)

Section RespawnProperties.
Import GameState.
Open Scope Z_scope.

(** X22: when the respawn timer of a player (id not negative) fires and
    the player's ship is still in the ship map, the ship is alive again
    at the spawn slot of its id, with full health, no input, and
    invulnerable for the next 2000 ms, so that a hit within that time
    does nothing; every other ship and every player record is as
    before. *)
Theorem respawnPlayer_revives (playerId now : Z) (g : GameState.t) (ship : Ship.t) :
  JsMap.get playerId (ships g) = Some ship ->
  0 <= playerId ->
  exists g' ship',
    respawnPlayer playerId now g = Some g' /\
    JsMap.get playerId (ships g') = Some ship' /\
    Ship.isAlive ship' = true /\ Ship.health ship' = Ship.maxHealth ship /\
    Ship.position ship' = spawnSlot playerId /\
    Ship.input ship' = Ship.noInput /\
    Ship.invulnerableUntil ship' = now + 2000 /\
    (forall damage t, t < now + 2000 ->
       Ship.takeDamage damage t ship' = (false, ship')) /\
    (forall other, other <> playerId ->
       JsMap.get other (ships g') = JsMap.get other (ships g)) /\
    players g' = players g.
Proof.
  intros Hship Hnn.
  exists (set_ships
            (JsMap.alter (Ship.respawn (spawnSlot playerId) now) playerId (ships g)) g),
         (Ship.respawn (spawnSlot playerId) now ship).
  split.
  - unfold respawnPlayer. rewrite Hship, getSpawnPosition_slot by exact Hnn.
    reflexivity.
  - cbn [ships players set_ships].
    split; [rewrite JsMap_get_alter_eq, Hship; reflexivity |].
    split; [reflexivity |]. split; [reflexivity |].
    split; [unfold spawnSlot; destruct (Z.even playerId); reflexivity |].
    split; [reflexivity |]. split; [reflexivity |].
    split; [| split; [| reflexivity]].
    + intros damage t Ht. apply takeDamage_invulnerable. exact Ht.
    + intros other Hne. apply JsMap_get_alter_ne. congruence.
Qed.

End RespawnProperties.

(** Player 1's ship, killed at time 10, respawned at time 3010. *)
Lemma respawnPlayer_revives_witness :
  let dead := snd (Ship.takeDamage 100 10 (Ship.new 1 (Vector2D.mk 600 300))) in
  let g := GameState.mk [(1%Z, dead)] [] true false 0 0 [] 2 GameState.deathmatch
             5 300000 0 0 true None [] in
  exists g' ship',
    GameState.respawnPlayer 1 3010 g = Some g' /\
    JsMap.get 1 (GameState.ships g') = Some ship' /\
    Ship.isAlive ship' = true /\ Ship.health ship' = 100%Z.
Proof.
  intros dead g.
  destruct (respawnPlayer_revives 1 3010 g dead eq_refl)
    as (g' & ship' & H1 & H2 & H3 & H4 & _); [lia |].
  exists g', ship'. repeat split; assumption.
Defined.
